(** * retro-rom-downloader: the matching and selection pipeline of
    [download_roms.py], embedded in Rocq.

    Python [str] values are modelled as [string]: sequences of the code
    points 0..255 (Latin-1).  On that range the character classes below
    are the ones CPython uses: [str.isspace] and the regex class [\s]
    agree, [\d] is the ten ASCII digits, and [str.lower] maps a code point
    to a code point.  [int] is taken as total on digit strings (the
    interpreter's optional limit on the number of digits is not
    modelled).  Scores are Python integers, modelled as [Z]. *)

From stdpp Require Import gmap strings list sorting.
From Stdlib Require Import ZArith Lia Ascii String.

(** ** Characters *)

Module Chr.

Definition code (c : ascii) : N := Ascii.N_of_ascii c.

(** [str.isspace] on one character, which is also the regex class [\s]. *)
Definition is_space (c : ascii) : bool :=
  let n := code c in
  ((9 <=? n) && (n <=? 13) || (28 <=? n) && (n <=? 32)
   || (n =? 133) || (n =? 160))%N.

(** The regex class [\d]. *)
Definition is_digit (c : ascii) : bool :=
  let n := code c in ((48 <=? n) && (n <=? 57))%N.

(** [str.lower] on one character. *)
Definition lower (c : ascii) : ascii :=
  let n := code c in
  if ((65 <=? n) && (n <=? 90)
      || (192 <=? n) && (n <=? 222) && negb (n =? 215))%N
  then Ascii.ascii_of_N (n + 32) else c.

Definition digit_value (c : ascii) : Z := Z.of_N (code c) - 48.

End Chr.

(** ** The [str] methods the program calls *)

Module Str.

(** [sub in s] is [contains sub s]; [s.startswith p] is [String.prefix p s]. *)
Fixpoint contains (sub s : string) : bool :=
  String.prefix sub s
  || match s with
     | "" => false
     | String _ s' => contains sub s'
     end.

Fixpoint mem (c : ascii) (s : string) : bool :=
  match s with
  | "" => false
  | String x s' => Ascii.eqb x c || mem c s'
  end.

Fixpoint lower (s : string) : string :=
  match s with
  | "" => ""
  | String x s' => String (Chr.lower x) (lower s')
  end.

Fixpoint take (n : nat) (s : string) : string :=
  match n, s with
  | S k, String x s' => String x (take k s')
  | _, _ => ""
  end.

Fixpoint drop (n : nat) (s : string) : string :=
  match n, s with
  | S k, String _ s' => drop k s'
  | _, _ => s
  end.

(** The longest prefix of [s] in the class [c], and what follows it. *)
Fixpoint take_while (c : ascii -> bool) (s : string) : string :=
  match s with
  | "" => ""
  | String x s' => if c x then String x (take_while c s') else ""
  end.

Fixpoint drop_while (c : ascii -> bool) (s : string) : string :=
  match s with
  | "" => ""
  | String x s' => if c x then drop_while c s' else s
  end.

Fixpoint all (c : ascii -> bool) (s : string) : bool :=
  match s with
  | "" => true
  | String x s' => c x && all c s'
  end.

(** [s.endswith(suf)] *)
Definition endswith (suf s : string) : bool :=
  (String.length suf <=? String.length s)%nat
  && String.eqb (drop (String.length s - String.length suf) s) suf.

(** [s[:-k]] for a positive literal [k]. *)
Definition slice_to_minus (k : nat) (s : string) : string :=
  take (String.length s - k) s.

Definition lstrip (s : string) : string := drop_while Chr.is_space s.

Fixpoint rstrip (s : string) : string :=
  match s with
  | "" => ""
  | String x s' =>
      match rstrip s' with
      | "" => if Chr.is_space x then "" else String x ""
      | r => String x r
      end
  end.

(** [s.strip()] *)
Definition strip (s : string) : string := rstrip (lstrip s).

(** [s.split(sep)] for a one-character separator. *)
Fixpoint split (sep : ascii) (s : string) : list string :=
  match s with
  | "" => [""]
  | String x s' =>
      if Ascii.eqb x sep then "" :: split sep s'
      else match split sep s' with
           | h :: t => String x h :: t
           | [] => [String x ""]
           end
  end.

(** [s.split("/")[-1]] *)
Definition last_segment (s : string) : string :=
  List.last (split "/" s) "".

(** [s.rfind(c)] for a one-character needle: [None] stands for -1. *)
Fixpoint rfind (c : ascii) (s : string) : option nat :=
  match s with
  | "" => None
  | String x s' =>
      match rfind c s' with
      | Some i => Some (S i)
      | None => if Ascii.eqb x c then Some 0%nat else None
      end
  end.

(** [s.replace(old, new)] for a non-empty [old]: occurrences are taken
    left to right and do not overlap.  [skip] counts the characters of
    the occurrence just replaced that are still to be passed over. *)
Fixpoint replace_go (old new : string) (skip : nat) (s : string) : string :=
  match s with
  | "" => ""
  | String x s' =>
      match skip with
      | S k => replace_go old new k s'
      | O =>
          if String.prefix old s
          then new +:+ replace_go old new (String.length old - 1) s'
          else String x (replace_go old new 0 s')
      end
  end.

Definition replace (old new s : string) : string := replace_go old new 0 s.

(** [int(s)] on a string of decimal digits. *)
Fixpoint int_go (acc : Z) (s : string) : Z :=
  match s with
  | "" => acc
  | String x s' => int_go (10 * acc + Chr.digit_value x) s'
  end.

Definition int (s : string) : Z := int_go 0 s.

End Str.

(** ** The fragment of [re] the two patterns of the program use

    A pattern is a sequence of atoms; an atom is a character class that is
    matched once, zero or more times ([*]) or one or more times ([+]),
    greedily and with backtracking, and that may belong to capture group
    1.  The matcher tries the alternatives in the order the backtracking
    engine of [re] does, so the first success is the match [re] reports. *)

Module Re.

Inductive quant := Once | ZeroOrMore | OneOrMore.

Record atom := Atom { cls : ascii -> bool; rep : quant; grp : bool }.

Definition regex := list atom.

(** A match: its length and the text of group 1. *)
Definition found : Type := nat * string.

Definition take_char (g : bool) (x : ascii) (r : found) : found :=
  (S (fst r), if g then String x (snd r) else snd r).

(** A greedy repetition of the class [c] followed by the rest of the
    pattern [k]: one more character is taken while that leads to a
    match, and the rest of the pattern is tried where it does not. *)
Fixpoint star (c : ascii -> bool) (g : bool)
    (k : string -> option found) (s : string) : option found :=
  match s with
  | String x s' =>
      if c x then
        match star c g k s' with
        | Some r => Some (take_char g x r)
        | None => k s
        end
      else k s
  | "" => k s
  end.

Definition one (c : ascii -> bool) (g : bool)
    (k : string -> option found) (s : string) : option found :=
  match s with
  | String x s' => if c x then take_char g x <$> k s' else None
  | "" => None
  end.

(** [match_here re s]: the match of [re] anchored at the start of [s]. *)
Fixpoint match_here (re : regex) (s : string) {struct re} : option found :=
  match re with
  | [] => Some (O, "")
  | Atom c q g :: re' =>
      match q with
      | Once => one c g (match_here re') s
      | ZeroOrMore => star c g (match_here re') s
      | OneOrMore => one c g (star c g (match_here re')) s
      end
  end.

(** [re.search(re, s)]: the match at the leftmost position that has one. *)
Fixpoint search (re : regex) (s : string) : option found :=
  match match_here re s with
  | Some r => Some r
  | None =>
      match s with
      | "" => None
      | String _ s' => search re s'
      end
  end.

(** [re.sub(re, '', s)]: every match, scanning left to right, is deleted.
    [skip] counts the characters of the current match still to delete.
    An empty match deletes nothing. *)
Fixpoint sub_go (re : regex) (skip : nat) (s : string) : string :=
  match s with
  | "" => ""
  | String x s' =>
      match skip with
      | S k => sub_go re k s'
      | O =>
          match match_here re s with
          | Some (S k, _) => sub_go re k s'
          | _ => String x (sub_go re 0 s')
          end
      end
  end.

Definition sub_empty (re : regex) (s : string) : string := sub_go re 0 s.

Definition chr (x : ascii) : atom := Atom (Ascii.eqb x) Once false.

Definition not_chr (x : ascii) : ascii -> bool := fun y => negb (Ascii.eqb x y).

(** A literal piece of a pattern. *)
Fixpoint lit (s : string) : regex :=
  match s with
  | "" => []
  | String x s' => chr x :: lit s'
  end.

(** [r'\s*\([^)]*\)'] *)
Definition paren_tag : regex :=
  [ Atom Chr.is_space ZeroOrMore false; chr "(";
    Atom (not_chr ")") ZeroOrMore false; chr ")" ].

(** [r"\(rev (\d+)\)"] *)
Definition rev_tag : regex :=
  lit "(rev " ++ [ Atom Chr.is_digit OneOrMore true; chr ")" ].

End Re.

(** ** [get_canonical_name] *)

Definition get_canonical_name (filename : string) : string :=
  let name := Re.sub_empty Re.paren_tag filename in
  Str.strip (Str.replace ".zip" "" name).

(** ** [build_canonical_map]

    The dictionary keeps its keys in insertion order, which is the order
    [canonical_map.keys()] hands to the matcher: an association list. *)

Definition dict : Type := list (string * list string).

Fixpoint dict_get (k : string) (d : dict) : option (list string) :=
  match d with
  | [] => None
  | (k', vs) :: d' => if String.eqb k' k then Some vs else dict_get k d'
  end.

Definition dict_keys (d : dict) : list string := d.*1.

(** [if k not in d: d[k] = []] followed by [d[k].append(v)]. *)
Fixpoint dict_append (k v : string) (d : dict) : dict :=
  match d with
  | [] => [(k, [v])]
  | (k', vs) :: d' =>
      if String.eqb k' k then (k', vs ++ [v]) :: d'
      else (k', vs) :: dict_append k v d'
  end.

Definition region_str (region : string) : string := "(" +:+ region +:+ ")".

Definition regional_links (links : list string) (region : string) : list string :=
  List.filter (fun link => Str.contains (region_str region) link) links.

(** The key a link is stored under: the canonical name of its filename. *)
Definition canonical_of (link : string) : string :=
  let filename := Str.last_segment link in
  get_canonical_name filename.

(** The body of the loop over [regional_links]. *)
Definition map_step (canonical_map : dict) (link : string) : dict :=
  dict_append (canonical_of link) link canonical_map.

Definition build_canonical_map (links : list string) (region : string) : dict :=
  fold_left map_step (regional_links links region) [].

(** ** [select_best_version] *)

Definition penalty_tags : list string := ["(beta"; "(proto"; "(sample)"].

(** The score the loop body gives one candidate. *)
Definition score (match_ : string) : Z :=
  let score := 100%Z in
  let filename := Str.lower (Str.last_segment match_) in
  let score :=
    if existsb (fun tag => Str.contains tag filename) penalty_tags
    then (score - 50)%Z else score in
  match Re.search Re.rev_tag filename with
  | Some (_, group1) => (score + Str.int group1)%Z
  | None => score
  end.

(** One iteration of the loop on the state [(best_match, highest_score)]. *)
Definition select_step (st : option string * Z) (match_ : string)
    : option string * Z :=
  if (score match_ >? st.2)%Z then (Some match_, score match_) else st.

Definition select_best_version (matches : list string) : option string :=
  match matches with
  | [] => None
  | _ => (fold_left select_step matches (None, (-1)%Z)).1
  end.

(** ** [pathlib] names (POSIX flavour) *)

Module Path.

(** The components of a path: empty and ["."] components are dropped. *)
Definition parts (p : string) : list string :=
  List.filter (fun c => negb (String.eqb c "") && negb (String.eqb c "."))
    (Str.split "/" p).

(** [PurePath(p).name] *)
Definition name (p : string) : string := List.last (parts p) "".

(** The index of the dot that starts the suffix of a name, if it has one:
    [i = name.rfind('.')] with [0 < i < len(name) - 1]. *)
Definition suffix_index (nm : string) : option nat :=
  match Str.rfind "." nm with
  | Some i =>
      if (0 <? i)%nat && (i <? String.length nm - 1)%nat then Some i else None
  | None => None
  end.

(** [PurePath(p).suffix] *)
Definition suffix (p : string) : string :=
  let nm := name p in
  match suffix_index nm with
  | Some i => Str.drop i nm
  | None => ""
  end.

(** [PurePath(p).stem] *)
Definition stem (p : string) : string :=
  let nm := name p in
  match suffix_index nm with
  | Some i => Str.take i nm
  | None => nm
  end.

(** The names [with_name] accepts; on another it raises [ValueError]. *)
Definition valid_name (nm : string) : bool :=
  negb (String.eqb nm "") && negb (Str.mem "/" nm) && negb (String.eqb nm ".").

End Path.

(** ** [get_clean_name_for_rename] *)

Definition get_clean_name_for_rename (filename : string) : string :=
  let name_without_ext := Path.stem filename in
  let clean_name := Re.sub_empty Re.paren_tag name_without_ext in
  let clean_name :=
    if Str.endswith ", The" clean_name
    then "The " +:+ Str.slice_to_minus 5 clean_name
    else clean_name in
  Str.strip clean_name.

(** ** Console output, collaborators and the command monad

    A command writes a trace of events and either goes on with a value,
    returns from the command, or leaves the process ([sys.exit]) or the
    command by an exception nobody catches.  The collaborators (HTTP
    fetch, files, [aria2c], [unzip]) appear as events; what they print
    themselves belongs to their event.  [ERename] stands for the guarded
    block that creates the parent directory, renames the file and prints
    the outcome. *)

Inductive message :=
  | MsgStarting
  | MsgNoLinks
  | MsgNoGames
  | MsgNoMatchingRoms
  | MsgFound (n : nat)
  | MsgMissingHeader
  | MsgMissingGame (game : string)
  | MsgNotADirectory
  | MsgFilesToProcess (n : nat).

Inductive event :=
  | EMkdir (dir : string)
  | ERunChecks
  | EGetLinks (url : string)
  | EReadGamesList (file : string)
  | EPrint (m : message)
  | EWriteLinks (links : list string) (file : string)
  | EDownloadRoms (input_file output_dir : string)
  | EUnzipAndCleanup (output_dir : string)
  | ERename (parent old_name new_name : string).

Inductive outcome (A : Type) :=
  | Go (a : A)
  | Return
  | SysExit (code : Z)
  | ValueError.
Arguments Go {A} a.
Arguments Return {A}.
Arguments SysExit {A} code.
Arguments ValueError {A}.

Definition cmd (A : Type) : Type := list event * outcome A.

#[global] Instance cmd_ret : MRet cmd := fun A a => ([], Go a).
#[global] Instance cmd_bind : MBind cmd := fun A B f c =>
  match c.2 with
  | Go a => (c.1 ++ (f a).1, (f a).2)
  | Return => (c.1, Return)
  | SysExit n => (c.1, SysExit n)
  | ValueError => (c.1, ValueError)
  end.

Definition emit (e : event) : cmd unit := ([e], Go tt).
Definition print (m : message) : cmd unit := emit (EPrint m).
Definition return_ {A} : cmd A := ([], Return).
Definition sys_exit {A} (code : Z) : cmd A := ([], SysExit code).
Definition raise_value_error {A} : cmd A := ([], ValueError).

(** [for x in xs: body x] *)
Fixpoint for_each {A} (xs : list A) (body : A -> cmd unit) : cmd unit :=
  match xs with
  | [] => mret tt
  | x :: xs' => body x ;; for_each xs' body
  end.

Definition trace_of {A} (c : cmd A) : list event := c.1.

(** ** The matcher, [filter_links] and the two subcommands *)

Section Pipeline.

(** The similarity of [thefuzz] between a requested title and a choice
    (its default scorer after its default processing).  The library is
    not part of the program; [extractOne] below is its documented
    behaviour: the best-scoring choice, the first one among equals, if
    its score reaches the cutoff. *)
Variable ratio : string -> string -> Z.

Definition extract_step (query : string) (score_cutoff : Z)
    (best : option (string * Z)) (choice : string) : option (string * Z) :=
  let sc := ratio query choice in
  if (score_cutoff <=? sc)%Z
     && match best with
        | Some (_, b) => (b <? sc)%Z
        | None => true
        end
  then Some (choice, sc) else best.

Definition extractOne (query : string) (choices : list string)
    (score_cutoff : Z) : option (string * Z) :=
  fold_left (extract_step query score_cutoff) choices None.

(** [canonical_map[k]]: the key always comes from [canonical_map.keys()]
    (lemma [extractOne_key] below), so the lookup cannot raise. *)
Definition dict_item (k : string) (d : dict) : list string :=
  default [] (dict_get k d).

(** The truth value of a string. *)
Definition truthy (s : string) : bool := negb (String.eqb s "").

(** One iteration of the loop over [games] on the state
    [(final_links, matched_games)]. *)
Definition filter_step (canonical_map : dict) (canonical_names : list string)
    (st : list string * gset string) (game : string)
    : list string * gset string :=
  match extractOne game canonical_names 85 with
  | Some (best_canonical_name, _) =>
      let all_versions := dict_item best_canonical_name canonical_map in
      match select_best_version all_versions with
      | Some best_version =>
          if truthy best_version
          then (st.1 ++ [best_version], {[game]} ∪ st.2)
          else st
      | None => st
      end
  | None => st
  end.

(** The list of selected links before the duplicates are removed, and
    the matched games. *)
Definition filter_loop (links games : list string) (region : string)
    : list string * gset string :=
  let canonical_map := build_canonical_map links region in
  let canonical_names := dict_keys canonical_map in
  fold_left (filter_step canonical_map canonical_names) games ([], ∅).

(** [list(set(final_links))]: the order is the set's own. *)
Definition filter_links (links games : list string) (region : string)
    : list string * gset string :=
  let r := filter_loop links games region in
  (elements (list_to_set r.1 : gset string), r.2).

(** What the run finds outside the program. *)
Record world := World {
  has_aria2c : bool;
  has_unzip : bool;
  fetched_links : list string;     (* what [get_links] returns *)
  games_list : list string;        (* what [read_games_list] returns *)
}.

Record download_args := DownloadArgs {
  games_list_path : string;
  url : string;
  output_dir : string;
  region : string;
  aria2c_input_file : string;
  no_unzip : bool;
}.

Definition run_checks (w : world) : cmd unit :=
  emit ERunChecks ;;
  (if has_aria2c w then mret tt else sys_exit 1) ;;
  (if has_unzip w then mret tt else sys_exit 1).

Definition is_empty {A} (l : list A) : bool :=
  match l with [] => true | _ => false end.

(** [sorted(list(missing_games))] *)
Definition sorted (s : gset string) : list string :=
  merge_sort String.le (elements s).

Definition download_command (w : world) (args : download_args) : cmd unit :=
  emit (EMkdir (output_dir args)) ;;
  run_checks w ;;
  print MsgStarting ;;
  emit (EGetLinks (url args)) ;;
  let links := fetched_links w in
  (if is_empty links then print MsgNoLinks ;; return_ else mret tt) ;;
  emit (EReadGamesList (games_list_path args)) ;;
  let games := games_list w in
  (if is_empty games then print MsgNoGames ;; return_ else mret tt) ;;
  let '(matched_links, matched_games) :=
    filter_links links games (region args) in
  (if is_empty matched_links
   then print MsgNoMatchingRoms ;; return_ else mret tt) ;;
  print (MsgFound (List.length matched_links)) ;;
  let missing_games : gset string := list_to_set games ∖ matched_games in
  (if decide (missing_games = ∅) then mret tt
   else print MsgMissingHeader ;;
        for_each (sorted missing_games)
          (fun game => print (MsgMissingGame game))) ;;
  emit (EWriteLinks matched_links (aria2c_input_file args)) ;;
  emit (EDownloadRoms (aria2c_input_file args) (output_dir args)) ;;
  (if no_unzip args then mret tt
   else emit (EUnzipAndCleanup (output_dir args))).

(** A file found by [rglob]: the directory it is in and its name. *)
Record file := File { parent : string; file_name : string }.

(** The body of the loop of [rename_command] for one file. *)
Definition rename_file (old_path : file) : cmd unit :=
  let old_name := file_name old_path in
  let clean_name := get_clean_name_for_rename old_name in
  let new_name := clean_name +:+ Path.suffix old_name in
  (if Path.valid_name new_name then mret tt else raise_value_error) ;;
  if decide (old_name = new_name) then mret tt
  else emit (ERename (parent old_path) old_name new_name).

(** [rename_command], given whether the directory exists and the files
    found under it. *)
Definition rename_command (is_dir : bool) (files_to_rename : list file)
    : cmd unit :=
  (if is_dir then mret tt else print MsgNotADirectory ;; return_) ;;
  print (MsgFilesToProcess (List.length files_to_rename)) ;;
  for_each files_to_rename rename_file.

End Pipeline.

(** ** [get_links], [read_games_list], [write_links_to_file] and
    [unzip_and_cleanup] at their boundary with the outside *)

Section Fetch.

(** [urllib.parse.unquote] and [urllib.parse.urljoin], library functions
    taken as they are. *)
Variable unquote : string -> string.
Variable urljoin : string -> string -> string.

(** The body of the loop over the anchors of the page. *)
Definition links_step (url : string) (links : list string) (href : string)
    : list string :=
  if negb (Str.endswith "/" href) && Str.endswith ".zip" href
  then links ++ [urljoin url (unquote href)]
  else links.

(** [get_links], given what the request and the parser produce: [None]
    when the request raises, else the [href] values of the anchors that
    have one, in page order. *)
Definition get_links (url : string) (page : option (list string))
    : list string :=
  match page with
  | None => []
  | Some hrefs => fold_left (links_step url) hrefs []
  end.

End Fetch.

(** The lines a text file yields when it is iterated, each with its
    newline (the last one may lack it).  [content] is the text as Python
    hands it out, line ends already translated to a newline. *)
Fixpoint file_lines (content : string) : list string :=
  match content with
  | "" => []
  | String x s' =>
      if Ascii.eqb x "010" then String x "" :: file_lines s'
      else match file_lines s' with
           | [] => [String x ""]
           | line :: rest => String x line :: rest
           end
  end.

(** [read_games_list], given the content of the file: [None] when it does
    not exist. *)
Definition read_games_list (file : option string) : list string :=
  match file with
  | None => []
  | Some content =>
      (fun line => Str.strip line)
        <$> List.filter (fun line => negb (String.eqb (Str.strip line) ""))
              (file_lines content)
  end.

(** What [write_links_to_file] writes. *)
Fixpoint write_links_to_file (links : list string) : string :=
  match links with
  | [] => ""
  | link :: links' => link +:+ String "010" "" +:+ write_links_to_file links'
  end.

(** What happens to one archive: [unzip] succeeds, fails with a non-zero
    exit status, or something else raises. *)
Inductive unzip_result := Extracted | CalledProcessError | OtherException.

Inductive cleanup_event :=
  | CPrintUnzipping
  | CUnzip (zip : string)
  | CUnlink (zip : string)
  | CPrintUnzipError (zip : string)
  | CPrintError (zip : string)
  | CPrintComplete.

(** The body of the loop of [unzip_and_cleanup] for one archive. *)
Definition unzip_one (run_unzip : string -> unzip_result)
    (unlink_ok : string -> bool) (zip : string) : list cleanup_event :=
  CUnzip zip
  :: match run_unzip zip with
     | Extracted =>
         CUnlink zip :: (if unlink_ok zip then [] else [CPrintError zip])
     | CalledProcessError => [CPrintUnzipError zip]
     | OtherException => [CPrintError zip]
     end.

(** [unzip_and_cleanup], given the names of the entries of the output
    directory and what the two file operations do. *)
Definition unzip_and_cleanup (entries : list string)
    (run_unzip : string -> unzip_result) (unlink_ok : string -> bool)
    : list cleanup_event :=
  let zip_files :=
    List.filter (fun f => String.eqb (Path.suffix f) ".zip") entries in
  [CPrintUnzipping]
  ++ flat_map (unzip_one run_unzip unlink_ok) zip_files
  ++ [CPrintComplete].

(** * The vocabulary of the statements *)

(** [t] occurs in [s]. *)
Definition occurs_in (t s : string) : Prop :=
  exists p q, s = p +:+ t +:+ q.

(** [s] has a parenthetical group: an opening parenthesis with a closing
    one somewhere after it. *)
Fixpoint has_group (s : string) : bool :=
  match s with
  | "" => false
  | String x s' => Ascii.eqb x "(" && Str.mem ")" s' || has_group s'
  end.

(** [s] is [t] with some characters deleted. *)
Inductive subseq : string -> string -> Prop :=
  | subseq_nil : subseq "" ""
  | subseq_skip x s t : subseq s t -> subseq s (String x t)
  | subseq_keep x s t : subseq s t -> subseq (String x s) (String x t).

(** A revision tag [(rev N)] with the digits [ds] starts right after the
    prefix [p] of [s]. *)
Definition rev_tag_at (s p ds : string) : Prop :=
  exists q, s = p +:+ "(rev " +:+ ds +:+ ")" +:+ q
            /\ ds <> "" /\ Str.all Chr.is_digit ds = true.

(** The scoring policy in words: a filename is tagged when one of the
    penalty tags occurs in it; its revision bonus is the number of the
    first revision tag, or nothing without one. *)
Definition tagged (fn : string) : Prop :=
  exists tag, tag ∈ penalty_tags /\ occurs_in tag fn.

Inductive penalty (fn : string) : Z -> Prop :=
  | penalty_tagged : tagged fn -> penalty fn 50
  | penalty_clean : ~ tagged fn -> penalty fn 0.

Inductive rev_bonus (fn : string) : Z -> Prop :=
  | rev_bonus_none :
      (forall p ds, ~ rev_tag_at fn p ds) -> rev_bonus fn 0
  | rev_bonus_first p ds :
      rev_tag_at fn p ds ->
      (forall p' ds', rev_tag_at fn p' ds' ->
                      (String.length p <= String.length p')%nat) ->
      rev_bonus fn (Str.int ds).

Definition score_spec (match_ : string) (z : Z) : Prop :=
  let fn := Str.lower (Str.last_segment match_) in
  exists pen bonus, penalty fn pen /\ rev_bonus fn bonus
                    /\ z = (100 - pen + bonus)%Z.

(** The link one requested title contributes, if any. *)
Definition selected_for (ratio : string -> string -> Z)
    (canonical_map : dict) (game : string) : option string :=
  match extractOne ratio game (dict_keys canonical_map) 85 with
  | Some (best_canonical_name, _) =>
      match select_best_version (dict_item best_canonical_name canonical_map) with
      | Some best_version =>
          if truthy best_version then Some best_version else None
      | None => None
      end
  | None => None
  end.

(** The titles that get a link. *)
Definition matched_of (ratio : string -> string -> Z)
    (canonical_map : dict) (games : list string) : list string :=
  List.filter
    (fun g => bool_decide (is_Some (selected_for ratio canonical_map g))) games.


Definition invokes_downloader (t : list event) : Prop :=
  exists input_file dir, EDownloadRoms input_file dir ∈ t.

(** The lines of the unmatched report. *)
Definition missing_report (missing_games : gset string) : list event :=
  if decide (missing_games = ∅) then []
  else EPrint MsgMissingHeader
       :: ((fun g => EPrint (MsgMissingGame g)) <$> sorted missing_games).

(** The events every run starts with, once both tools are found. *)
Definition preamble (args : download_args) : list event :=
  [EMkdir (output_dir args); ERunChecks; EPrint MsgStarting;
   EGetLinks (url args)].

(** A scorer for the examples: equal titles score 100, others 0. *)
Definition exact_ratio (query choice : string) : Z :=
  if String.eqb query choice then 100%Z else 0%Z.

(** The tags of a filename, each written [" (tag)"]. *)
Fixpoint tags_str (tags : list string) : string :=
  match tags with
  | [] => ""
  | tag :: tags' => " (" +:+ tag +:+ ")" +:+ tags_str tags'
  end.

(** The name [rename_command] gives a file. *)
Definition new_name_of (f : file) : string :=
  get_clean_name_for_rename (file_name f) +:+ Path.suffix (file_name f).

(** The newline character. *)
Definition nl : string := String "010" "".

(** * Tactics and auxiliary notions of the proofs *)

(** What a greedy repetition adds to the match of the rest. *)
Definition with_run (g : bool) (run : string) (r : Re.found) : Re.found :=
  ((String.length run + r.1)%nat, if g then run +:+ r.2 else r.2).

(** The downloader event is not in an explicit list of other events. *)
Ltac no_downloader :=
  let H := fresh in
  intros (? & ? & H); simpl in H;
  rewrite ?elem_of_cons, ?elem_of_nil in H;
  repeat (destruct H as [H|H]; [discriminate H|]);
  exact H.

(** * Facts about the string primitives *)

Section StrFacts.

Lemma sapp_cons x (s t : string) : String x s +:+ t = String x (s +:+ t).
Proof. reflexivity. Qed.

Lemma sapp_nil_l (s : string) : "" +:+ s = s.
Proof. reflexivity. Qed.

Lemma sapp_nil_r (s : string) : s +:+ "" = s.
Proof. induction s as [|x s IH]; [done|]. by rewrite sapp_cons, IH. Qed.

Lemma sapp_assoc (s t u : string) : (s +:+ t) +:+ u = s +:+ t +:+ u.
Proof. induction s as [|x s IH]; [done|]. by rewrite !sapp_cons, IH. Qed.

Lemma slength_app (s t : string) :
  String.length (s +:+ t) = (String.length s + String.length t)%nat.
Proof. induction s as [|x s IH]; [done|]. rewrite sapp_cons. simpl. lia. Qed.

Lemma prefix_nil (s : string) : String.prefix "" s = true.
Proof. by destruct s. Qed.

Lemma prefix_spec (p s : string) :
  String.prefix p s = true <-> exists q, s = p +:+ q.
Proof.
  revert s. induction p as [|x p IH]; intros s.
  - rewrite prefix_nil. split; [|done]. intros _. by exists s.
  - destruct s as [|y s]; simpl.
    + split; [done|]. by intros [q Hq].
    + destruct (ascii_dec x y) as [->|Hne].
      * rewrite IH. split; intros [q Hq]; exists q.
        -- by rewrite sapp_cons, <- Hq.
        -- rewrite sapp_cons in Hq. by simplify_eq.
      * split; [done|]. intros [q Hq]. rewrite sapp_cons in Hq. by simplify_eq.
Qed.

Lemma contains_nil (t : string) : Str.contains t "" = String.prefix t "".
Proof. simpl. apply orb_false_r. Qed.

Lemma contains_cons (t : string) x (s : string) :
  Str.contains t (String x s)
  = String.prefix t (String x s) || Str.contains t s.
Proof. reflexivity. Qed.

Lemma contains_spec (t s : string) :
  Str.contains t s = true <-> occurs_in t s.
Proof.
  induction s as [|x s IH]; [rewrite contains_nil|rewrite contains_cons].
  - rewrite prefix_spec. split.
    + intros [q Hq]. by exists "", q.
    + intros ([|y p] & q & Hq); [by exists q|]. by rewrite sapp_cons in Hq.
  - rewrite orb_true_iff, IH, prefix_spec. split.
    + intros [[q Hq]|(p & q & Hq)].
      * by exists "", q.
      * exists (String x p), q. by rewrite sapp_cons, <- Hq.
    + intros ([|y p] & q & Hq).
      * left. by exists q.
      * right. rewrite sapp_cons in Hq. simplify_eq. by exists p, q.
Qed.

Lemma mem_app c (s t : string) :
  Str.mem c (s +:+ t) = Str.mem c s || Str.mem c t.
Proof.
  induction s as [|x s IH]; [done|].
  rewrite sapp_cons. simpl. by rewrite IH, orb_assoc.
Qed.

(** The last path segment holds no slash and is what follows the last
    slash of the link, or the whole link when it has none. *)
Lemma split_last (s : string) :
  let l := Str.split "/" s in
  Str.mem "/" (List.last l "") = false
  /\ (l = [s] \/ exists p h t, l = h :: t /\ t <> []
                              /\ s = p +:+ "/" +:+ List.last l "").
Proof.
  cbv zeta. induction s as [|x s IH]; [by split; [|left]|].
  destruct IH as [Hmem IH]. cbn [Str.split].
  destruct (Ascii.eqb_spec x "/") as [->|Hne].
  - destruct IH as [Hl|(p & h & t & Hl & Ht & Hs)].
    + rewrite Hl in Hmem |- *. split; [done|]. right.
      exists "", "", [s]. by rewrite sapp_nil_l.
    + rewrite Hl in Hmem, Hs |- *. split; [done|]. right.
      exists (String "/" p), "", (h :: t).
      split; [done|]. split; [done|].
      change (List.last ("" :: h :: t) "") with (List.last (h :: t) "").
      by rewrite sapp_cons, <- Hs.
  - destruct IH as [Hl|(p & h & t & Hl & Ht & Hs)].
    + rewrite Hl in Hmem |- *. simpl in Hmem |- *. split; [|by left].
      rewrite Hmem, orb_false_r. by apply Ascii.eqb_neq.
    + rewrite Hl in Hmem, Hs |- *. destruct t as [|h' t]; [done|].
      split; [done|]. right. exists (String x p), (String x h), (h' :: t).
      split; [done|]. split; [done|].
      change (List.last (String x h :: h' :: t) "")
        with (List.last (h :: h' :: t) "").
      by rewrite sapp_cons, <- Hs.
Qed.

Lemma last_segment_spec (s : string) :
  Str.mem "/" (Str.last_segment s) = false
  /\ (s = Str.last_segment s
      \/ exists p, s = p +:+ "/" +:+ Str.last_segment s).
Proof.
  unfold Str.last_segment. destruct (split_last s) as [Hmem [Hl|H]].
  - split; [done|]. left. by rewrite Hl.
  - split; [done|]. right. destruct H as (p & _ & _ & _ & _ & Hs). by exists p.
Qed.

End StrFacts.

(** * Facts about the matcher *)

Section ReFacts.

Lemma take_drop_while c (s : string) :
  Str.take_while c s +:+ Str.drop_while c s = s.
Proof.
  induction s as [|x s IH]; [done|]. simpl.
  destruct (c x); [|done]. by rewrite sapp_cons, IH.
Qed.

Lemma drop_while_head c (s : string) y r :
  Str.drop_while c s = String y r -> c y = false.
Proof.
  induction s as [|x s IH]; [done|]. simpl.
  destruct (c x) eqn:Hx; [done|]. intros. by simplify_eq.
Qed.

Lemma all_take_while c (s : string) : Str.all c (Str.take_while c s) = true.
Proof.
  induction s as [|x s IH]; [done|]. simpl.
  destruct (c x) eqn:Hx; [|done]. simpl. by rewrite Hx.
Qed.

Lemma take_while_app c (s t : string) :
  Str.all c s = true ->
  Str.take_while c (s +:+ t) = s +:+ Str.take_while c t.
Proof.
  induction s as [|x s IH]; [done|]. simpl.
  intros [Hx Hs]%andb_true_iff. rewrite ?sapp_cons. simpl.
  by rewrite ?Hx, IH.
Qed.

Lemma drop_while_app c (s t : string) :
  Str.all c s = true ->
  Str.drop_while c (s +:+ t) = Str.drop_while c t.
Proof.
  induction s as [|x s IH]; [done|]. simpl.
  intros [Hx Hs]%andb_true_iff. rewrite ?sapp_cons. simpl.
  by rewrite ?Hx, IH.
Qed.

(** When the rest of the pattern cannot start on a character of the
    class, the repetition takes the whole run and never gives back. *)
Lemma star_greedy c g k (s : string) :
  (forall x s', c x = true -> k (String x s') = None) ->
  Re.star c g k s
  = with_run g (Str.take_while c s) <$> k (Str.drop_while c s).
Proof.
  intros Hk. induction s as [|x s IH]; simpl.
  - destruct (k "") as [[n t]|]; [|done]. by destruct g.
  - destruct (c x) eqn:Hx.
    + rewrite IH. destruct (k (Str.drop_while c s)) as [[n t]|]; simpl.
      * by destruct g.
      * by apply Hk.
    + destruct (k (String x s)) as [[n t]|]; [|done]. by destruct g.
Qed.

Lemma one_fails c g k x (s : string) :
  c x = false -> Re.one c g k (String x s) = None.
Proof. intros Hx. simpl. by rewrite Hx. Qed.

Lemma space_not_paren x : Chr.is_space x = true -> Ascii.eqb "(" x = false.
Proof.
  intros Hx. destruct (Ascii.eqb_spec "(" x) as [<-|]; [|done].
  by vm_compute in Hx.
Qed.

Lemma not_chr_spec x y : Re.not_chr x y = true -> Ascii.eqb x y = false.
Proof. unfold Re.not_chr. by intros ?%negb_true_iff. Qed.

Lemma digit_not_paren x : Chr.is_digit x = true -> Ascii.eqb ")" x = false.
Proof.
  intros Hx. destruct (Ascii.eqb_spec ")" x) as [<-|]; [|done].
  by vm_compute in Hx.
Qed.

(** The match of [\s*\([^)]*\)] at the start of [s], in closed form. *)
Lemma paren_tag_here (s : string) :
  Re.match_here Re.paren_tag s
  = match Str.drop_while Chr.is_space s with
    | String x t =>
        if Ascii.eqb "(" x then
          match Str.drop_while (Re.not_chr ")") t with
          | String y _ =>
              if Ascii.eqb ")" y
              then Some ((String.length (Str.take_while Chr.is_space s)
                          + S (String.length
                                 (Str.take_while (Re.not_chr ")") t) + 1))%nat,
                         "")
              else None
          | "" => None
          end
        else None
    | "" => None
    end.
Proof.
  unfold Re.paren_tag, Re.chr. cbn [Re.match_here].
  rewrite star_greedy
    by (intros x s' Hx; apply one_fails; by apply space_not_paren).
  destruct (Str.drop_while Chr.is_space s) as [|x t]; [done|].
  cbn [Re.one]. destruct (Ascii.eqb "(" x); [|done].
  rewrite star_greedy
    by (intros y s' Hy; apply one_fails; by apply not_chr_spec).
  destruct (Str.drop_while (Re.not_chr ")") t) as [|y r]; [done|].
  cbn [Re.one]. destruct (Ascii.eqb ")" y); [|done].
  done.
Qed.

End ReFacts.

(** * Parenthetical groups and subsequences *)

Section GroupFacts.

Hint Constructors subseq : core.

Lemma subseq_refl s : subseq s s.
Proof. induction s; auto. Qed.

Lemma subseq_nil_l s : subseq "" s.
Proof. induction s; auto. Qed.

Lemma subseq_trans s t u : subseq s t -> subseq t u -> subseq s u.
Proof.
  intros Hst Htu. revert s Hst.
  induction Htu as [|x t u _ IH|x t u _ IH]; intros s Hst; auto.
  inversion Hst; subst; auto.
Qed.

Lemma subseq_length s t : subseq s t -> (String.length s <= String.length t)%nat.
Proof. induction 1; simpl; lia. Qed.

Lemma subseq_mem c s t : subseq s t -> Str.mem c s = true -> Str.mem c t = true.
Proof.
  induction 1 as [|x s t _ IH|x s t _ IH]; simpl; [done|..].
  - intros ?. rewrite IH by done. apply orb_true_r.
  - intros [->|?]%orb_true_iff; [done|]. rewrite IH by done. apply orb_true_r.
Qed.

Lemma subseq_has_group s t : subseq s t -> has_group s = true -> has_group t = true.
Proof.
  induction 1 as [|x s t _ IH|x s t Hst IH]; simpl; [done|..].
  - intros ?. rewrite IH by done. apply orb_true_r.
  - intros [[-> Hm]%andb_true_iff|?]%orb_true_iff.
    + by rewrite (subseq_mem _ _ _ Hst Hm).
    + rewrite IH by done. apply orb_true_r.
Qed.

Lemma subseq_no_group s t : subseq s t -> has_group t = false -> has_group s = false.
Proof.
  intros Hst Ht. destruct (has_group s) eqn:Hs; [|done].
  by rewrite (subseq_has_group _ _ Hst Hs) in Ht.
Qed.

Lemma subseq_app_r p s : subseq s (p +:+ s).
Proof. induction p; [apply subseq_refl|]. rewrite sapp_cons. auto. Qed.

Lemma subseq_drop_while c s : subseq (Str.drop_while c s) s.
Proof.
  induction s as [|x s IH]; simpl; [auto|].
  destruct (c x); auto using subseq_refl.
Qed.

Lemma subseq_take n s : subseq (Str.take n s) s.
Proof.
  revert n. induction s as [|x s IH]; intros [|n]; simpl;
    auto using subseq_nil_l.
Qed.

Lemma subseq_rstrip s : subseq (Str.rstrip s) s.
Proof.
  induction s as [|x s IH]; simpl; [auto|].
  destruct (Str.rstrip s) as [|y r]; [|auto].
  destruct (Chr.is_space x); auto using subseq_nil_l.
Qed.

Lemma subseq_strip s : subseq (Str.strip s) s.
Proof.
  unfold Str.strip, Str.lstrip.
  eapply subseq_trans; [apply subseq_rstrip|apply subseq_drop_while].
Qed.

Lemma subseq_replace_go old k s : subseq (Str.replace_go old "" k s) s.
Proof.
  revert k. induction s as [|x s IH]; intros k; [simpl; auto|].
  cbn [Str.replace_go]. destruct k as [|k]; [|auto].
  destruct (String.prefix old (String x s)); [|auto].
  rewrite sapp_nil_l. auto.
Qed.

Lemma subseq_sub_go re k s : subseq (Re.sub_go re k s) s.
Proof.
  revert k. induction s as [|x s IH]; intros k; [simpl; auto|].
  cbn [Re.sub_go]. destruct k as [|k]; [|auto].
  destruct (Re.match_here re (String x s)) as [[[|n] g]|]; auto.
Qed.

(** Deleting the class [not c] from the front stops on the first [c]. *)
Lemma drop_while_not_chr c s :
  Str.drop_while (Re.not_chr c) s
  = if Str.mem c s
    then String c (Str.drop (S (String.length (Str.take_while (Re.not_chr c) s))) s)
    else "".
Proof.
  induction s as [|x s IH]; [done|]. simpl. unfold Re.not_chr at 1 3.
  rewrite (Ascii.eqb_sym x c).
  destruct (Ascii.eqb_spec c x) as [->|Hne]; simpl; [done|].
  rewrite IH. by destruct (Str.mem c s).
Qed.

Lemma has_group_drop_while c s :
  has_group (Str.drop_while c s) = true -> has_group s = true.
Proof. apply subseq_has_group, subseq_drop_while. Qed.

(** A match of the pattern lies on a group and is not empty. *)
Lemma paren_tag_match s r :
  Re.match_here Re.paren_tag s = Some r ->
  has_group s = true /\ (0 < r.1)%nat.
Proof.
  rewrite paren_tag_here.
  destruct (Str.drop_while Chr.is_space s) as [|x t] eqn:Hs; [done|].
  destruct (Ascii.eqb_spec "(" x) as [<-|]; [|done].
  rewrite drop_while_not_chr.
  destruct (Str.mem ")" t) eqn:Ht; [|done].
  simpl. intros [= <-]. split; [|simpl; lia].
  apply (has_group_drop_while Chr.is_space). rewrite Hs. simpl. by rewrite Ht.
Qed.

(** On an opening parenthesis the pattern matches exactly when a closing
    one follows. *)
Lemma paren_tag_open s :
  Re.match_here Re.paren_tag (String "(" s) = None -> Str.mem ")" s = false.
Proof.
  rewrite paren_tag_here. simpl.
  rewrite drop_while_not_chr. by destruct (Str.mem ")" s).
Qed.

(** After the substitution no group is left. *)
Lemma sub_go_no_group k s : has_group (Re.sub_go Re.paren_tag k s) = false.
Proof.
  revert k. induction s as [|x s IH]; intros k; [done|].
  cbn [Re.sub_go]. destruct k as [|k]; [|done].
  assert (Re.match_here Re.paren_tag (String x s) = None ->
          has_group (String x (Re.sub_go Re.paren_tag 0 s)) = false) as Hnone.
  { intros Hm. simpl. rewrite IH, orb_false_r.
    destruct (Ascii.eqb_spec x "(") as [->|]; [|done]. simpl.
    apply paren_tag_open in Hm.
    destruct (Str.mem ")" (Re.sub_go Re.paren_tag 0 s)) eqn:Hin; [|done].
    by rewrite (subseq_mem _ _ _ (subseq_sub_go _ _ _) Hin) in Hm. }
  destruct (Re.match_here Re.paren_tag (String x s)) as [[[|n] g]|] eqn:Hm;
    [|done|by apply Hnone].
  apply paren_tag_match in Hm as [_ ?]. simpl in *. lia.
Qed.

(** A string without a group is left as it is. *)
Lemma sub_no_group_id s :
  has_group s = false -> Re.sub_empty Re.paren_tag s = s.
Proof.
  unfold Re.sub_empty. induction s as [|x s IH]; [done|].
  intros Hs. cbn [Re.sub_go].
  destruct (Re.match_here Re.paren_tag (String x s)) as [r|] eqn:Hm.
  { apply paren_tag_match in Hm as [Hg _]. congruence. }
  simpl in Hs. apply orb_false_iff in Hs as [_ Hs]. by rewrite IH.
Qed.



Lemma rstrip_idem s : Str.rstrip (Str.rstrip s) = Str.rstrip s.
Proof.
  induction s as [|x s IH]; [done|]. simpl.
  destruct (Str.rstrip s) as [|y r] eqn:Hr.
  - destruct (Chr.is_space x) eqn:Hx; [done|]. simpl. by rewrite Hx.
  - remember (String y r) as t eqn:Ht. simpl. rewrite IH. by subst t.
Qed.

Lemma rstrip_head x s :
  Chr.is_space x = false -> exists r, Str.rstrip (String x s) = String x r.
Proof.
  intros Hx. simpl. destruct (Str.rstrip s) as [|y r]; rewrite ?Hx; eauto.
Qed.

Lemma lstrip_strip s : Str.lstrip (Str.strip s) = Str.strip s.
Proof.
  unfold Str.strip, Str.lstrip.
  destruct (Str.drop_while Chr.is_space s) as [|y t] eqn:Hs; [done|].
  apply drop_while_head in Hs.
  destruct (rstrip_head y t Hs) as [r ->]. simpl. by rewrite Hs.
Qed.

Lemma strip_idem s : Str.strip (Str.strip s) = Str.strip s.
Proof.
  unfold Str.strip at 1. rewrite lstrip_strip.
  unfold Str.strip. apply rstrip_idem.
Qed.

End GroupFacts.

(** * The canonical name normalizer *)

Section Canonical.

(** The canonical name has no parenthetical group left and is trimmed. *)
Lemma canonical_no_group f : has_group (get_canonical_name f) = false.
Proof.
  unfold get_canonical_name, Str.replace, Re.sub_empty.
  eapply subseq_no_group; [apply subseq_strip|].
  eapply subseq_no_group; [apply subseq_replace_go|].
  apply sub_go_no_group.
Qed.

Lemma canonical_stripped f :
  Str.strip (get_canonical_name f) = get_canonical_name f.
Proof. apply strip_idem. Qed.


End Canonical.





(** C4: the normalizer on the example of the specification, and on a name
    with [".zip"] inside it: every occurrence is removed, not only the
    trailing extension. *)
Theorem get_canonical_name_examples :
  get_canonical_name "Game (USA) (Rev 2).zip" = "Game"
  /\ get_canonical_name "Game.zipped (USA).zip" = "Gameped"
  /\ get_canonical_name "Game.zipped (USA).zip" <> "Game.zipped".
Proof. vm_compute. repeat split; congruence. Qed.

(** * The revision tag *)

Section RevFacts.

Lemma drop_app_length (p q : string) : Str.drop (String.length p) (p +:+ q) = q.
Proof. induction p as [|x p IH]; [by destruct q|]. by rewrite sapp_cons. Qed.

Lemma lit_here l re (s : string) :
  Re.match_here (Re.lit l ++ re) s
  = if String.prefix l s
    then (fun r : Re.found => ((String.length l + r.1)%nat, r.2))
           <$> Re.match_here re (Str.drop (String.length l) s)
    else None.
Proof.
  revert s. induction l as [|x l IH]; intros s.
  - rewrite prefix_nil. simpl.
    by destruct (Re.match_here re s) as [[n g]|].
  - cbn [Re.lit app Re.match_here Re.chr]. destruct s as [|y s]; [done|].
    cbn [Re.one String.prefix].
    destruct (Ascii.eqb_spec x y) as [->|Hne].
    + destruct (ascii_dec y y); [|done]. rewrite IH.
      destruct (String.prefix l s); [|done]. simpl.
      by destruct (Re.match_here re _) as [[n g]|].
    + by destruct (ascii_dec x y).
Qed.

(** The match of [\\(rev (\\d+)\\)] at the start of [s], in closed form. *)
Lemma rev_tag_here (s : string) :
  Re.match_here Re.rev_tag s
  = if String.prefix "(rev " s then
      let t := Str.drop 5 s in
      match Str.take_while Chr.is_digit t, Str.drop_while Chr.is_digit t with
      | String x ds, String y _ =>
          if Ascii.eqb ")" y
          then Some ((6 + String.length (String x ds))%nat, String x ds)
          else None
      | _, _ => None
      end
    else None.
Proof.
  unfold Re.rev_tag. rewrite lit_here.
  destruct (String.prefix "(rev " s); [|done].
  change (String.length "(rev ") with 5%nat. cbv zeta.
  generalize (Str.drop 5 s) as t. intros t.
  cbn [Re.match_here Re.chr]. destruct t as [|x t]; [done|].
  cbn [Re.one Str.take_while Str.drop_while].
  destruct (Chr.is_digit x) eqn:Hx; [|done].
  rewrite star_greedy
    by (intros y s' Hy; apply one_fails; by apply digit_not_paren).
  destruct (Str.drop_while Chr.is_digit t) as [|y r]; [done|].
  cbn [Re.one]. destruct (Ascii.eqb ")" y); [|done].
  simpl. rewrite sapp_nil_r. do 3 f_equal. lia.
Qed.

Lemma take_while_digits_close ds q :
  Str.all Chr.is_digit ds = true ->
  Str.take_while Chr.is_digit (ds +:+ ")" +:+ q) = ds.
Proof. intros Hds. rewrite take_while_app by done. apply sapp_nil_r. Qed.

Lemma drop_while_digits_close ds q :
  Str.all Chr.is_digit ds = true ->
  Str.drop_while Chr.is_digit (ds +:+ ")" +:+ q) = ")" +:+ q.
Proof. intros Hds. by rewrite drop_while_app. Qed.

(** The pattern matches at the start of [s] exactly when a revision tag
    starts there, and group 1 is its digits. *)
Lemma rev_tag_here_spec (s : string) n g :
  Re.match_here Re.rev_tag s = Some (n, g)
  <-> rev_tag_at s "" g /\ n = (6 + String.length g)%nat.
Proof.
  rewrite rev_tag_here. split.
  - destruct (String.prefix "(rev " s) eqn:Hp; [|done].
    apply prefix_spec in Hp as [t ->].
    change 5%nat with (String.length "(rev "). rewrite drop_app_length.
    cbv zeta. pose proof (take_drop_while Chr.is_digit t) as Ht.
    pose proof (all_take_while Chr.is_digit t) as Hall.
    destruct (Str.take_while Chr.is_digit t) as [|x ds]; [done|].
    destruct (Str.drop_while Chr.is_digit t) as [|y r]; [done|].
    destruct (Ascii.eqb_spec ")" y) as [<-|]; [|done].
    intros [= <- <-]. split; [|done].
    exists r. rewrite sapp_nil_l. by rewrite <- Ht.
  - intros [(q & -> & Hne & Hds) ->]. rewrite sapp_nil_l.
    assert (String.prefix "(rev " ("(rev " +:+ g +:+ ")" +:+ q) = true) as ->.
    { apply prefix_spec. by eexists. }
    change 5%nat with (String.length "(rev "). rewrite drop_app_length.
    cbv zeta. rewrite take_while_digits_close, drop_while_digits_close by done.
    destruct g as [|x ds]; [done|]. by rewrite sapp_cons.
Qed.

Lemma rev_tag_at_cons x (s p ds : string) :
  rev_tag_at (String x s) (String x p) ds <-> rev_tag_at s p ds.
Proof.
  unfold rev_tag_at. split; intros (q & Hq & ?); exists q; split; try done.
  - rewrite sapp_cons in Hq. by simplify_eq.
  - by rewrite sapp_cons, <- Hq.
Qed.

Lemma rev_tag_at_head x (s : string) y p ds :
  rev_tag_at (String x s) (String y p) ds -> x = y.
Proof. intros (q & Hq & _). rewrite sapp_cons in Hq. by simplify_eq. Qed.

Lemma rev_tag_at_nil p ds : ~ rev_tag_at "" p ds.
Proof.
  intros (q & Hq & _). apply (f_equal String.length) in Hq.
  rewrite !slength_app in Hq. simpl in Hq. lia.
Qed.

(** [re.search] reports the first revision tag, if there is one. *)
Lemma search_rev_tag (s : string) :
  match Re.search Re.rev_tag s with
  | Some (_, g) =>
      exists p, rev_tag_at s p g
        /\ forall p' ds', rev_tag_at s p' ds' ->
                          (String.length p <= String.length p')%nat
  | None => forall p ds, ~ rev_tag_at s p ds
  end.
Proof.
  induction s as [|x s IH]; cbn [Re.search].
  - destruct (Re.match_here Re.rev_tag "") as [[n g]|] eqn:Hm.
    + apply rev_tag_here_spec in Hm as [Hm _]. by apply rev_tag_at_nil in Hm.
    + intros p ds. apply rev_tag_at_nil.
  - destruct (Re.match_here Re.rev_tag (String x s)) as [[n g]|] eqn:Hm.
    + apply rev_tag_here_spec in Hm as [Hm _]. exists "". split; [done|].
      intros; simpl; lia.
    + assert (forall ds, ~ rev_tag_at (String x s) "" ds) as Hhead.
      { intros ds Hds.
        assert (Re.match_here Re.rev_tag (String x s)
                = Some ((6 + String.length ds)%nat, ds)) as Heq
          by by apply rev_tag_here_spec.
        congruence. }
      destruct (Re.search Re.rev_tag s) as [[n g]|].
      * destruct IH as (p & Hp & Hmin). exists (String x p). split.
        { by apply rev_tag_at_cons. }
        intros [|y p'] ds' H'; [by apply Hhead in H'|].
        pose proof (rev_tag_at_head _ _ _ _ _ H') as <-.
        apply rev_tag_at_cons in H'. apply Hmin in H'. simpl. lia.
      * intros [|y p] ds H'; [by apply Hhead in H'|].
        pose proof (rev_tag_at_head _ _ _ _ _ H') as <-.
        apply rev_tag_at_cons in H'. by apply IH in H'.
Qed.

Lemma digit_value_nonneg x : Chr.is_digit x = true -> (0 <= Chr.digit_value x)%Z.
Proof.
  unfold Chr.is_digit, Chr.digit_value.
  intros [H1 _]%andb_true_iff. apply N.leb_le in H1. lia.
Qed.

Lemma int_go_nonneg (ds : string) acc :
  Str.all Chr.is_digit ds = true -> (0 <= acc)%Z -> (0 <= Str.int_go acc ds)%Z.
Proof.
  revert acc. induction ds as [|x ds IH]; intros acc; simpl; [done|].
  intros [Hx Hds]%andb_true_iff Hacc. apply IH; [done|].
  pose proof (digit_value_nonneg x Hx). lia.
Qed.

Lemma int_nonneg (ds : string) :
  Str.all Chr.is_digit ds = true -> (0 <= Str.int ds)%Z.
Proof. intros. by apply int_go_nonneg. Qed.



End RevFacts.

(** * The variant selector *)

Section SelectFacts.

Lemma tagged_spec fn :
  existsb (fun tag => Str.contains tag fn) penalty_tags = true <-> tagged fn.
Proof.
  rewrite existsb_exists. unfold tagged.
  split; intros (tag & Hin & Hc); exists tag.
  - split; [by apply list_elem_of_In|by apply contains_spec].
  - split; [by apply list_elem_of_In|by apply contains_spec].
Qed.

Lemma score_correct m : score_spec m (score m).
Proof.
  unfold score_spec, score. cbv zeta.
  set (fn := Str.lower (Str.last_segment m)).
  pose proof (tagged_spec fn) as Htag.
  pose proof (search_rev_tag fn) as Hrev.
  destruct (existsb _ penalty_tags) eqn:Hp.
  - exists 50%Z. destruct (Re.search Re.rev_tag fn) as [[n g]|].
    + destruct Hrev as (p & Hp1 & Hp2). exists (Str.int g).
      split; [constructor; by apply Htag|]. split; [|lia].
      by apply (rev_bonus_first fn p g).
    + exists 0%Z. split; [constructor; by apply Htag|].
      split; [by constructor|lia].
  - assert (~ tagged fn) as Hno by (intros H%Htag; done).
    exists 0%Z. destruct (Re.search Re.rev_tag fn) as [[n g]|].
    + destruct Hrev as (p & Hp1 & Hp2). exists (Str.int g).
      split; [by constructor|]. split; [|lia].
      by apply (rev_bonus_first fn p g).
    + exists 0%Z. split; [by constructor|]. split; [by constructor|lia].
Qed.




(** Every score is at least 50, so the first candidate always beats the
    initial [highest_score = -1]. *)
Lemma score_ge_50 m : (50 <= score m)%Z.
Proof.
  unfold score. cbv zeta.
  set (fn := Str.lower (Str.last_segment m)).
  pose proof (search_rev_tag fn) as Hrev.
  assert (forall g, (exists p, rev_tag_at fn p g) -> (0 <= Str.int g)%Z) as Hg.
  { intros g (p & q & _ & _ & Hds). by apply int_nonneg. }
  destruct (Re.search Re.rev_tag fn) as [[n g]|].
  - destruct Hrev as (p & Hp & _). specialize (Hg g (ex_intro _ p Hp)).
    destruct (existsb _ penalty_tags); lia.
  - destruct (existsb _ penalty_tags); lia.
Qed.

(** The loop keeps the first candidate of the highest score. *)
Lemma select_fold (l : list string) best hi :
  let r := fold_left select_step l (best, hi) in
  (r = (best, hi) /\ forall m, m ∈ l -> (score m <= hi)%Z)
  \/ (exists i m,
        l !! i = Some m /\ r = (Some m, score m) /\ (hi < score m)%Z
        /\ (forall j m', l !! j = Some m' -> (score m' <= score m)%Z)
        /\ (forall j m', l !! j = Some m' -> (j < i)%nat ->
                         (score m' < score m)%Z)).
Proof.
  cbv zeta.
  revert best hi. induction l as [|x l IH]; intros best hi; cbn [fold_left].
  - left. split; [done|]. intros m Hm. by apply elem_of_nil in Hm.
  - assert (select_step (best, hi) x
            = if (score x >? hi)%Z then (Some x, score x) else (best, hi))
      as -> by done.
    destruct (score x >? hi)%Z eqn:Hx.
    + apply Z.gtb_lt in Hx. right.
      destruct (IH (Some x) (score x))
        as [[Hr Hall]|(i & m & Hi & Hr & Hlt & Hmax & Hfirst)].
      * exists 0%nat, x. split; [done|]. split; [done|]. split; [done|].
        split; [|intros; lia].
        intros [|j] m' Hj; simpl in Hj; [simplify_eq; lia|].
        apply Hall. by eapply list_elem_of_lookup_2.
      * exists (S i), m. split; [done|]. split; [done|]. split; [lia|].
        split.
        -- intros [|j] m' Hj; simpl in Hj; [simplify_eq; lia|by eapply Hmax].
        -- intros [|j] m' Hj Hlt'; simpl in Hj; [simplify_eq; lia|].
           eapply Hfirst; [done|lia].
    + assert (score x <= hi)%Z as Hle.
      { destruct (Z.gtb_spec (score x) hi); [done|lia]. }
      destruct (IH best hi)
        as [[Hr Hall]|(i & m & Hi & Hr & Hlt & Hmax & Hfirst)].
      * left. split; [done|]. intros m [->|Hm]%elem_of_cons; [done|by apply Hall].
      * right. exists (S i), m. split; [done|]. split; [done|]. split; [done|].
        split.
        -- intros [|j] m' Hj; simpl in Hj; [simplify_eq; lia|by eapply Hmax].
        -- intros [|j] m' Hj Hlt'; simpl in Hj; [simplify_eq; lia|].
           eapply Hfirst; [done|lia].
Qed.

(** On a non-empty list the selector returns the first candidate of the
    highest score. *)
Lemma select_nonempty (matches : list string) :
  matches <> [] ->
  exists i best,
    select_best_version matches = Some best
    /\ matches !! i = Some best
    /\ (forall j m, matches !! j = Some m -> (score m <= score best)%Z)
    /\ (forall j m, matches !! j = Some m -> (j < i)%nat ->
                    (score m < score best)%Z).
Proof.
  intros Hne. unfold select_best_version.
  destruct (select_fold matches None (-1)%Z)
    as [[_ Hall]|(i & m & Hi & Hr & _ & Hmax & Hfirst)].
  - destruct matches as [|x l]; [done|].
    pose proof (Hall x (list_elem_of_here _ _)). pose proof (score_ge_50 x). lia.
  - destruct matches as [|x l]; [done|].
    exists i, m. rewrite Hr. done.
Qed.

End SelectFacts.






(** * The link classifier *)

Section MapFacts.

Lemma dict_get_append k k' v (d : dict) :
  dict_get k (dict_append k' v d)
  = if decide (k = k') then Some (default [] (dict_get k d) ++ [v])
    else dict_get k d.
Proof.
  induction d as [|[k0 vs] d IH]; simpl.
  - destruct (String.eqb_spec k' k) as [->|Hne].
    + by rewrite decide_True.
    + by rewrite decide_False.
  - destruct (String.eqb_spec k0 k') as [->|Hne]; simpl.
    + destruct (String.eqb_spec k' k) as [->|Hne'].
      * by rewrite decide_True.
      * by rewrite decide_False.
    + destruct (String.eqb_spec k0 k) as [->|Hne'].
      * by rewrite decide_False.
      * apply IH.
Qed.

Lemma dict_keys_append k k' v (d : dict) :
  k ∈ dict_keys (dict_append k' v d) <-> k ∈ dict_keys d \/ k = k'.
Proof.
  unfold dict_keys. induction d as [|[k0 vs] d IH]; simpl.
  - rewrite list_elem_of_singleton. split; [auto|].
    intros [H%elem_of_nil|?]; done.
  - destruct (String.eqb_spec k0 k') as [->|Hne]; simpl.
    + rewrite !elem_of_cons. tauto.
    + rewrite !elem_of_cons, IH. tauto.
Qed.

Lemma dict_keys_get k (d : dict) : k ∈ dict_keys d <-> is_Some (dict_get k d).
Proof.
  unfold dict_keys. induction d as [|[k0 vs] d IH]; simpl.
  - split; [by intros ?%elem_of_nil|by intros [? ?]].
  - rewrite elem_of_cons, IH.
    destruct (String.eqb_spec k0 k) as [->|Hne]; [by split; eauto|].
    split; [by intros [?|?]|by right].
Qed.

Lemma map_fold_get (ls : list string) (d : dict) k l :
  l ∈ default [] (dict_get k (fold_left map_step ls d))
  <-> l ∈ default [] (dict_get k d) \/ (l ∈ ls /\ k = canonical_of l).
Proof.
  revert d. induction ls as [|x ls IH]; intros d; cbn [fold_left].
  - split; [auto|]. by intros [?|[?%elem_of_nil _]].
  - rewrite IH. unfold map_step. rewrite dict_get_append.
    rewrite elem_of_cons. destruct (decide (k = canonical_of x)) as [->|Hne].
    + simpl. rewrite elem_of_app, list_elem_of_singleton. split.
      * intros [[?| ->]|[? ?]]; auto.
      * intros [?|[[->|?] ?]]; auto.
    + split; [intros [?|[? ?]]; auto|].
      intros [?|[[->|?] ?]]; auto. done.
Qed.

Lemma map_fold_keys (ls : list string) (d : dict) k :
  k ∈ dict_keys (fold_left map_step ls d)
  <-> k ∈ dict_keys d \/ exists l, l ∈ ls /\ k = canonical_of l.
Proof.
  revert d. induction ls as [|x ls IH]; intros d; cbn [fold_left].
  - split; [auto|]. by intros [?|(? & ?%elem_of_nil & _)].
  - rewrite IH. unfold map_step. rewrite dict_keys_append. split.
    + intros [[?| ->]|(l & ? & ?)]; [auto|right..].
      * exists x. split; [left|done].
      * exists l. split; [by right|done].
    + intros [?|(l & [->|?]%elem_of_cons & ?)]; [auto..|].
      right. by exists l.
Qed.

Lemma regional_links_spec l links region :
  l ∈ regional_links links region
  <-> l ∈ links /\ Str.contains (region_str region) l = true.
Proof.
  unfold regional_links. by rewrite !list_elem_of_In, filter_In.
Qed.

(** What the canonical map stores under a key. *)
Lemma canonical_map_item links region k l :
  l ∈ default [] (dict_get k (build_canonical_map links region))
  <-> l ∈ links /\ Str.contains (region_str region) l = true
      /\ k = canonical_of l.
Proof.
  unfold build_canonical_map.
  rewrite map_fold_get, regional_links_spec. simpl. split.
  - intros [?%elem_of_nil|[[? ?] ?]]; done.
  - intros (? & ? & ?). by right.
Qed.

Lemma canonical_map_keys links region k :
  k ∈ dict_keys (build_canonical_map links region)
  <-> exists l, l ∈ links /\ Str.contains (region_str region) l = true
                /\ k = canonical_of l.
Proof.
  unfold build_canonical_map.
  rewrite map_fold_keys. split.
  - intros [?%elem_of_nil|(l & [? ?]%regional_links_spec & ?)]; [done|].
    by exists l.
  - intros (l & ? & ? & ?). right. exists l.
    by rewrite regional_links_spec.
Qed.

(** A link that holds the region tag is not the empty string. *)
Lemma region_link_truthy region l :
  Str.contains (region_str region) l = true -> String.eqb l "" = false.
Proof.
  intros (p & q & ->)%contains_spec. apply String.eqb_neq.
  intros H%(f_equal String.length). unfold region_str in H.
  rewrite !slength_app in H. simpl in H. lia.
Qed.

End MapFacts.

(** * The matcher and [filter_links] *)

Section FilterFacts.

Variable ratio : string -> string -> Z.

Lemma extract_fold query cutoff (choices : list string) best :
  match fold_left (extract_step ratio query cutoff) choices best with
  | Some (c, sc) =>
      best = Some (c, sc)
      \/ (c ∈ choices /\ sc = ratio query c /\ (cutoff <= sc)%Z)
  | None => best = None /\ forall c, c ∈ choices -> (ratio query c < cutoff)%Z
  end.
Proof.
  revert best. induction choices as [|x cs IH]; intros best; cbn [fold_left].
  - destruct best as [[c sc]|]; [by left|].
    split; [done|]. by intros c ?%elem_of_nil.
  - specialize (IH (extract_step ratio query cutoff best x)).
    destruct (fold_left _ cs _) as [[c sc]|].
    + destruct IH as [Hb|(? & ? & ?)]; [|right; by rewrite elem_of_cons; auto].
      unfold extract_step in Hb.
      destruct (cutoff <=? ratio query x)%Z eqn:Hc; simpl in Hb; [|by left].
      destruct (match best with Some _ => _ | None => _ end); [|by left].
      simplify_eq. right. split; [by left|]. split; [done|]. lia.
    + destruct IH as [Hb Hall]. unfold extract_step in Hb.
      destruct (cutoff <=? ratio query x)%Z eqn:Hc; simpl in Hb.
      * destruct best as [[c sc]|]; [|done].
        by destruct (sc <? ratio query x)%Z.
      * split; [done|]. intros c [->|?]%elem_of_cons; [lia|by apply Hall].
Qed.

(** The choice [extractOne] returns is one of the choices and reaches the
    cutoff; it returns nothing exactly when no choice reaches it. *)
Lemma extractOne_key query choices cutoff c sc :
  extractOne ratio query choices cutoff = Some (c, sc) ->
  c ∈ choices /\ sc = ratio query c /\ (cutoff <= sc)%Z.
Proof.
  unfold extractOne. intros H.
  pose proof (extract_fold query cutoff choices None) as Hf.
  rewrite H in Hf. by destruct Hf as [?|?].
Qed.

Lemma extractOne_none query choices cutoff :
  extractOne ratio query choices cutoff = None
  <-> forall c, c ∈ choices -> (ratio query c < cutoff)%Z.
Proof.
  unfold extractOne.
  pose proof (extract_fold query cutoff choices None) as Hf. split.
  - intros H. rewrite H in Hf. by destruct Hf.
  - intros Hall. destruct (fold_left _ choices None) as [[c sc]|]; [|done].
    destruct Hf as [?|(Hc & -> & ?)]; [done|]. apply Hall in Hc. lia.
Qed.

Lemma filter_step_selected canonical_map st game :
  filter_step ratio canonical_map (dict_keys canonical_map) st game
  = match selected_for ratio canonical_map game with
    | Some l => (st.1 ++ [l], {[game]} ∪ st.2)
    | None => st
    end.
Proof.
  unfold filter_step, selected_for.
  destruct (extractOne _ _ _ _) as [[k sc]|]; [|done].
  destruct (select_best_version _) as [l|]; [|done].
  by destruct (truthy l).
Qed.

Lemma filter_fold canonical_map (games : list string) st :
  fold_left (filter_step ratio canonical_map (dict_keys canonical_map)) games st
  = (st.1 ++ omap (selected_for ratio canonical_map) games,
     list_to_set (matched_of ratio canonical_map games) ∪ st.2).
Proof.
  revert st. induction games as [|g gs IH]; intros [fl mg]; cbn [fold_left].
  - simpl. rewrite app_nil_r. f_equal. symmetry. apply (left_id_L ∅ (∪)).
  - rewrite IH, filter_step_selected. unfold matched_of.
    cbn [List.filter omap list_omap].
    destruct (selected_for ratio canonical_map g) as [l|] eqn:Hg.
    + rewrite bool_decide_true by (by eexists). cbn [fst snd].
      rewrite <- (assoc_L (++)). f_equal.
      rewrite list_to_set_cons, (comm_L (∪) {[g]} (list_to_set _)).
      apply (assoc_L (∪)).
    + rewrite bool_decide_false by (by intros [? ?]). done.
Qed.

Lemma filter_loop_spec links games region :
  let canonical_map := build_canonical_map links region in
  filter_loop ratio links games region
  = (omap (selected_for ratio canonical_map) games,
     list_to_set (matched_of ratio canonical_map games)).
Proof.
  cbv zeta. unfold filter_loop. rewrite filter_fold. simpl.
  f_equal. apply (right_id_L ∅ (∪)).
Qed.

(** A title gets a link exactly when the matcher finds it a canonical
    title: the group of a key of the map is never empty, and its links
    are not empty strings. *)
Lemma selected_for_spec links region game l :
  selected_for ratio (build_canonical_map links region) game = Some l ->
  l ∈ links /\ Str.contains (region_str region) l = true.
Proof.
  unfold selected_for.
  destruct (extractOne _ _ _ _) as [[k sc]|]; [|done].
  destruct (select_best_version _) as [best|] eqn:Hsel; [|done].
  destruct (truthy best); [|done]. intros [= ->].
  assert (dict_item k (build_canonical_map links region) <> []) as Hne.
  { intros Hnil. by rewrite Hnil in Hsel. }
  destruct (select_nonempty _ Hne) as (i & b & Hsel' & Hi & _).
  rewrite Hsel in Hsel'. injection Hsel' as <-.
  apply list_elem_of_lookup_2 in Hi. unfold dict_item in Hi.
  apply canonical_map_item in Hi. tauto.
Qed.

Lemma selected_for_none links region game :
  selected_for ratio (build_canonical_map links region) game = None
  <-> extractOne ratio game
        (dict_keys (build_canonical_map links region)) 85 = None.
Proof.
  unfold selected_for. split.
  - destruct (extractOne _ _ _ _) as [[k sc]|] eqn:He; [|done].
    apply extractOne_key in He as [Hk _].
    apply canonical_map_keys in Hk as (l0 & Hl0 & Hreg & ->).
    assert (l0 ∈ dict_item (canonical_of l0) (build_canonical_map links region))
      as Hin by (apply canonical_map_item; done).
    assert (dict_item (canonical_of l0) (build_canonical_map links region) <> [])
      as Hne by (intros Hnil; rewrite Hnil in Hin; by apply elem_of_nil in Hin).
    destruct (select_nonempty _ Hne) as (i & b & -> & Hi & _).
    apply list_elem_of_lookup_2, canonical_map_item in Hi as (_ & Hb & _).
    unfold truthy. by rewrite (region_link_truthy _ _ Hb).
  - by intros ->.
Qed.

Lemma matched_of_spec links region games g :
  g ∈ matched_of ratio (build_canonical_map links region) games
  <-> g ∈ games
      /\ exists c, c ∈ dict_keys (build_canonical_map links region)
                   /\ (85 <= ratio g c)%Z.
Proof.
  unfold matched_of. rewrite list_elem_of_In, filter_In, <- list_elem_of_In.
  rewrite bool_decide_eq_true.
  assert (is_Some (selected_for ratio (build_canonical_map links region) g)
          <-> ~ (forall c, c ∈ dict_keys (build_canonical_map links region) ->
                           (ratio g c < 85)%Z)) as ->.
  { rewrite <- extractOne_none, <- selected_for_none.
    destruct (selected_for ratio _ g); split; done. }
  split; intros [Hg H]; (split; [done|]).
  - destruct (extractOne ratio g (dict_keys (build_canonical_map links region)) 85)
      as [[c sc]|] eqn:He.
    + apply extractOne_key in He as (? & -> & ?). by exists c.
    + destruct H. by apply extractOne_none.
  - destruct H as (c & Hc & Hle). intros Hall. apply Hall in Hc. lia.
Qed.

End FilterFacts.

(** C2 (as the code has it): the canonical map stores exactly the links
    in which the region tag occurs, anywhere in the link and not only in
    its last path segment, each under the canonical name of its filename;
    so the region tag occurs in every stored link and in every link
    [filter_links] returns. *)
Theorem canonical_map_region_links
    (ratio : string -> string -> Z) (links games : list string) (region : string) :
  (forall k l,
      l ∈ dict_item k (build_canonical_map links region)
      <-> l ∈ links /\ occurs_in (region_str region) l
          /\ k = get_canonical_name (Str.last_segment l))
  /\ (forall l, l ∈ (filter_links ratio links games region).1 ->
                l ∈ links /\ occurs_in (region_str region) l).
Proof.
  split.
  - intros k l. unfold dict_item. rewrite canonical_map_item.
    by rewrite contains_spec.
  - intros l. unfold filter_links. cbn [fst].
    rewrite elem_of_elements, elem_of_list_to_set, filter_loop_spec. cbn [fst].
    intros (g & Hg & Hsel)%list_elem_of_omap.
    apply selected_for_spec in Hsel as [? ?]. by rewrite <- contains_spec.
Qed.

(** C2 as stated fails: a link whose directory holds the region tag is
    kept, and selected, though its filename does not hold it. *)
Lemma region_tag_outside_filename :
  let link := "http://x/(USA)/B (Europe).zip" in
  build_canonical_map [link] "USA" = [("B", [link])]
  /\ (filter_links exact_ratio [link] ["B"] "USA").1 = [link]
  /\ Str.last_segment link = "B (Europe).zip"
  /\ Str.contains (region_str "USA") (Str.last_segment link) = false.
Proof. by vm_compute. Qed.

(** C7: the list [filter_links] returns has no duplicates and holds
    exactly the selected links, in no stated order; two titles that
    resolve to one link leave one entry. *)
Theorem filter_links_no_duplicates
    (ratio : string -> string -> Z) (links games : list string) (region : string) :
  NoDup (filter_links ratio links games region).1
  /\ (forall l, l ∈ (filter_links ratio links games region).1
                <-> l ∈ (filter_loop ratio links games region).1)
  /\ (filter_loop (fun _ _ => 100%Z) ["http://x/A (USA).zip"] ["A"; "B"] "USA").1
     = ["http://x/A (USA).zip"; "http://x/A (USA).zip"]
  /\ (filter_links (fun _ _ => 100%Z) ["http://x/A (USA).zip"] ["A"; "B"] "USA").1
     = ["http://x/A (USA).zip"].
Proof.
  split; [apply NoDup_elements|]. split; [|by vm_compute].
  intros l. unfold filter_links. cbn [fst].
  by rewrite elem_of_elements, elem_of_list_to_set.
Qed.

(** * The download command *)

Section CommandFacts.

Variable ratio : string -> string -> Z.

Lemma for_each_print {A} (f : A -> message) (xs : list A) :
  for_each xs (fun x => ([EPrint (f x)], Go tt))
  = ((fun x => EPrint (f x)) <$> xs, Go tt).
Proof.
  induction xs as [|x xs IH]; [done|]. cbn [for_each].
  unfold mbind, cmd_bind. rewrite IH. done.
Qed.

(** The command, branch by branch. *)
Lemma download_command_cases (w : world) (args : download_args) :
  let links := fetched_links w in
  let games := games_list w in
  let r := filter_links ratio links games (region args) in
  download_command ratio w args
  = if negb (has_aria2c w && has_unzip w)
    then ([EMkdir (output_dir args); ERunChecks], SysExit 1)
    else if is_empty links
    then (preamble args ++ [EPrint MsgNoLinks], Return)
    else if is_empty games
    then (preamble args
            ++ [EReadGamesList (games_list_path args); EPrint MsgNoGames],
          Return)
    else if is_empty r.1
    then (preamble args
            ++ [EReadGamesList (games_list_path args);
                EPrint MsgNoMatchingRoms],
          Return)
    else (preamble args
            ++ [EReadGamesList (games_list_path args);
                EPrint (MsgFound (List.length r.1))]
            ++ missing_report (list_to_set games ∖ r.2)
            ++ [EWriteLinks r.1 (aria2c_input_file args);
                EDownloadRoms (aria2c_input_file args) (output_dir args)]
            ++ (if no_unzip args then []
                else [EUnzipAndCleanup (output_dir args)]),
          Go tt).
Proof.
  cbv zeta. unfold download_command, run_checks, missing_report, preamble.
  destruct (has_aria2c w); [|done]. destruct (has_unzip w); [|done].
  destruct (fetched_links w) as [|l ls]; [done|].
  destruct (games_list w) as [|g gs]; [done|].
  destruct (filter_links ratio (l :: ls) (g :: gs) (region args))
    as [[|m ms] mg]; [done|].
  cbn [fst snd is_empty negb andb].
  destruct (decide (list_to_set (g :: gs) ∖ mg = ∅)) as [He|Hne].
  - destruct (no_unzip args); done.
  - unfold mbind, cmd_bind, print, emit. cbn [fst snd].
    rewrite (for_each_print MsgMissingGame). cbn [fst snd].
    destruct (no_unzip args); cbn [fst snd]; by rewrite ?app_nil_r.
Qed.





Lemma list_to_set_empty_nil (l : list string) :
  list_to_set l =@{gset string} ∅ -> l = [].
Proof.
  destruct l as [|x l]; [done|]. intros He.
  assert (x ∈ (∅ : gset string)) as Hx by (rewrite <- He; set_solver).
  by apply not_elem_of_empty in Hx.
Qed.

(** No title matches exactly when no link is selected. *)
Lemma matched_empty_iff links games region :
  (filter_links ratio links games region).2 = ∅
  <-> (filter_links ratio links games region).1 = [].
Proof.
  unfold filter_links. cbn [fst snd]. rewrite filter_loop_spec. cbn [fst snd].
  set (cm := build_canonical_map links region).
  assert (matched_of ratio cm games = [] <-> omap (selected_for ratio cm) games = [])
    as Hiff.
  { unfold matched_of. induction games as [|g gs IH]; [done|].
    cbn [List.filter omap list_omap].
    destruct (selected_for ratio cm g) as [l|].
    - by rewrite bool_decide_true by (by eexists).
    - by rewrite bool_decide_false by (by intros [? ?]). }
  split.
  - intros He. apply list_to_set_empty_nil in He.
    apply Hiff in He. rewrite He. apply elements_empty.
  - intros He. apply elements_empty_inv in He. apply leibniz_equiv in He.
    apply list_to_set_empty_nil in He. apply Hiff in He. by rewrite He.
Qed.

End CommandFacts.

(** C8: when link discovery returns nothing, or the requested-title list
    is empty, or no requested title matches, the command never invokes
    the downloader; with both tools present it prints the message of that
    case last and returns. *)
Theorem download_short_circuits
    (ratio : string -> string -> Z) (w : world) (args : download_args) :
  fetched_links w = []
  \/ games_list w = []
  \/ (filter_links ratio (fetched_links w) (games_list w) (region args)).2 = ∅ ->
  ~ invokes_downloader (trace_of (download_command ratio w args))
  /\ (has_aria2c w = true -> has_unzip w = true ->
      (download_command ratio w args).2 = Return
      /\ List.last (trace_of (download_command ratio w args)) (EPrint MsgStarting)
         = EPrint (if is_empty (fetched_links w) then MsgNoLinks
                   else if is_empty (games_list w) then MsgNoGames
                   else MsgNoMatchingRoms)).
Proof.
  intros Hcase. unfold trace_of, invokes_downloader.
  rewrite download_command_cases. cbv zeta.
  assert (is_empty (fetched_links w) = false -> is_empty (games_list w) = false ->
          is_empty (filter_links ratio (fetched_links w) (games_list w)
                      (region args)).1 = true) as Hr.
  { intros Hl Hg. destruct Hcase as [He|[He|He]].
    - by rewrite He in Hl.
    - by rewrite He in Hg.
    - apply matched_empty_iff in He. by rewrite He. }
  destruct (has_aria2c w), (has_unzip w); cbn [negb andb fst snd].
  2-4: split; [by no_downloader|done].
  unfold preamble.
  destruct (is_empty (fetched_links w)); cbn [fst snd];
    [split; [by no_downloader|done]|].
  destruct (is_empty (games_list w)); cbn [fst snd];
    [split; [by no_downloader|done]|].
  rewrite Hr by done. cbn [fst snd]. split; [by no_downloader|done].
Qed.

(** Otherwise the command goes on to the downloader. *)
Lemma download_reaches_downloader
    (ratio : string -> string -> Z) (w : world) (args : download_args) :
  has_aria2c w = true -> has_unzip w = true ->
  fetched_links w <> [] -> games_list w <> [] ->
  (filter_links ratio (fetched_links w) (games_list w) (region args)).1 <> [] ->
  EDownloadRoms (aria2c_input_file args) (output_dir args)
    ∈ trace_of (download_command ratio w args)
  /\ (download_command ratio w args).2 = Go tt.
Proof.
  intros Ha Hu Hl Hg Hr. unfold trace_of.
  rewrite download_command_cases. cbv zeta. rewrite Ha, Hu. cbn [negb andb].
  destruct (fetched_links w) as [|l ls]; [done|].
  destruct (games_list w) as [|g gs]; [done|].
  destruct (filter_links ratio (l :: ls) (g :: gs) (region args)).1
    as [|m ms]; [done|].
  cbn [is_empty fst snd]. split; [|done].
  rewrite !elem_of_app. right. right. right. left.
  apply elem_of_cons. right. apply list_elem_of_here.
Qed.

Lemma download_short_circuits_witness :
  let w := World true true ["http://x/A (USA).zip"] ["Zelda"] in
  let args := DownloadArgs "games.txt" "http://x/" "downloads" "USA"
                "aria2c-input.txt" false in
  ~ invokes_downloader (trace_of (download_command exact_ratio w args))
  /\ (download_command exact_ratio w args).2 = Return.
Proof.
  intros w args.
  destruct (download_short_circuits exact_ratio w args) as [Hno Hret].
  - right. right. vm_compute. reflexivity.
  - split; [exact Hno|]. apply Hret; reflexivity.
Defined.




(** * The rename cleaner *)

Section RenameFacts.

Lemma take_drop n (s : string) : Str.take n s +:+ Str.drop n s = s.
Proof.
  revert n. induction s as [|x s IH]; intros [|n]; simpl; try done.
  by rewrite sapp_cons, IH.
Qed.

Lemma take_app_length (t u : string) : Str.take (String.length t) (t +:+ u) = t.
Proof.
  induction t as [|x t IH]; [by destruct u|].
  rewrite sapp_cons. simpl. by rewrite IH.
Qed.

(** The stem and the suffix split the name. *)
Lemma stem_suffix p : Path.stem p +:+ Path.suffix p = Path.name p.
Proof.
  unfold Path.stem, Path.suffix.
  destruct (Path.suffix_index (Path.name p)) as [i|]; [apply take_drop|].
  apply sapp_nil_r.
Qed.

Lemma endswith_spec suf (s : string) :
  Str.endswith suf s = true <-> exists t, s = t +:+ suf.
Proof.
  unfold Str.endswith. rewrite andb_true_iff, Nat.leb_le, String.eqb_eq. split.
  - intros [Hlen Hdrop].
    exists (Str.take (String.length s - String.length suf) s).
    pose proof (take_drop (String.length s - String.length suf) s) as Htd.
    rewrite Hdrop in Htd. by symmetry.
  - intros [t ->]. rewrite slength_app. split; [lia|].
    replace (String.length t + String.length suf - String.length suf)%nat
      with (String.length t) by lia.
    apply drop_app_length.
Qed.

Lemma slice_to_minus_app (t suf : string) :
  Str.slice_to_minus (String.length suf) (t +:+ suf) = t.
Proof.
  unfold Str.slice_to_minus. rewrite slength_app.
  replace (String.length t + String.length suf - String.length suf)%nat
    with (String.length t) by lia.
  apply take_app_length.
Qed.

Lemma clean_name_no_group f : has_group (get_clean_name_for_rename f) = false.
Proof.
  unfold get_clean_name_for_rename. cbv zeta.
  eapply subseq_no_group; [apply subseq_strip|].
  pose proof (sub_go_no_group 0 (Path.stem f)) as Hbase.
  fold (Re.sub_empty Re.paren_tag (Path.stem f)) in Hbase.
  destruct (Str.endswith ", The" _); [|done].
  rewrite !sapp_cons, sapp_nil_l. simpl.
  eapply subseq_no_group; [apply subseq_take|done].
Qed.

Lemma split_no_sep sep (s : string) :
  Str.mem sep s = false -> Str.split sep s = [s].
Proof.
  induction s as [|x s IH]; [done|]. simpl.
  intros [Hx Hs]%orb_false_iff. by rewrite Hx, IH.
Qed.

(** A name [with_name] accepts is its own last component. *)
Lemma valid_name_is_name nm : Path.valid_name nm = true -> Path.name nm = nm.
Proof.
  unfold Path.valid_name, Path.name, Path.parts.
  intros [[He Hs]%andb_true_iff Hd]%andb_true_iff.
  apply negb_true_iff in Hs. rewrite (split_no_sep _ _ Hs). simpl.
  by rewrite He, Hd.
Qed.

(** What the loop body does with one file. *)
Lemma rename_file_cases (old_path : file) :
  let old_name := file_name old_path in
  let new_name := get_clean_name_for_rename old_name +:+ Path.suffix old_name in
  rename_file old_path
  = if Path.valid_name new_name
    then if decide (old_name = new_name) then ([], Go tt)
         else ([ERename (parent old_path) old_name new_name], Go tt)
    else ([], ValueError).
Proof.
  cbv zeta. unfold rename_file.
  destruct (Path.valid_name _); [|done].
  by destruct (decide _).
Qed.

End RenameFacts.

(** C9: the cleaner takes the stem of the name (the name without its
    extension; a file name is its own last path component), deletes the
    parenthetical tags from it so that no group is left, moves a trailing [", The"] to a leading ["The "], and trims;
    the new name is the clean name with the extension put back, and the
    file is renamed only if that name differs from the old one; the
    example of the specification is renamed as stated. *)
Theorem rename_cleaner (old_path : file) :
  let old_name := file_name old_path in
  let base := Re.sub_empty Re.paren_tag (Path.stem old_name) in
  let clean := get_clean_name_for_rename old_name in
  let new_name := clean +:+ Path.suffix old_name in
  Path.stem old_name +:+ Path.suffix old_name = Path.name old_name
  /\ (Path.valid_name old_name = true -> Path.name old_name = old_name)
  /\ has_group base = false /\ subseq base (Path.stem old_name)
  /\ (forall t, base = t +:+ ", The" -> clean = Str.strip ("The " +:+ t))
  /\ ((forall t, base <> t +:+ ", The") -> clean = Str.strip base)
  /\ has_group clean = false /\ Str.strip clean = clean
  /\ (forall p o n,
        ERename p o n ∈ trace_of (rename_file old_path) ->
        p = parent old_path /\ o = old_name /\ n = new_name /\ n <> o)
  /\ (Path.valid_name new_name = true -> new_name <> old_name ->
      rename_file old_path
      = ([ERename (parent old_path) old_name new_name], Go tt))
  /\ get_clean_name_for_rename "Zelda, The (USA).zip" = "The Zelda"
  /\ rename_file (File "roms" "Zelda, The (USA).zip")
     = ([ERename "roms" "Zelda, The (USA).zip" "The Zelda.zip"], Go tt).
Proof.
  cbv zeta. split; [apply stem_suffix|]. split; [apply valid_name_is_name|].
  split; [apply sub_go_no_group|]. split; [apply subseq_sub_go|].
  split.
  { intros t Ht. unfold get_clean_name_for_rename. cbv zeta. rewrite Ht.
    assert (Str.endswith ", The" (t +:+ ", The") = true) as ->
      by (apply endswith_spec; by exists t).
    change (Str.slice_to_minus 5 (t +:+ ", The"))
      with (Str.slice_to_minus (String.length ", The") (t +:+ ", The")).
    by rewrite slice_to_minus_app. }
  split.
  { intros Hno. unfold get_clean_name_for_rename. cbv zeta.
    destruct (Str.endswith ", The" _) eqn:He; [|done].
    apply endswith_spec in He as [t Ht]. by apply Hno in Ht. }
  split; [apply clean_name_no_group|]. split; [apply strip_idem|].
  unfold trace_of. rewrite rename_file_cases. cbv zeta.
  split.
  { intros p o n. destruct (Path.valid_name _); [|by intros ?%elem_of_nil].
    destruct (decide _) as [He|Hne]; [by intros ?%elem_of_nil|].
    intros Hin%list_elem_of_singleton. by simplify_eq. }
  split; [|by vm_compute].
  intros -> Hne. by rewrite decide_False.
Qed.

(** * Further properties: the normalizer on tagged names *)

Section NormalForm.

Lemma rstrip_tail x (t : string) :
  Str.rstrip (String x t) = String x t -> Str.rstrip t = t.
Proof.
  simpl. destruct (Str.rstrip t) as [|y r] eqn:Hr.
  - destruct (Chr.is_space x); [done|]. by intros [= <-].
  - by intros [= <-].
Qed.

Lemma rstrip_single x : Str.rstrip (String x "") = String x "" ->
  Chr.is_space x = false.
Proof. simpl. by destruct (Chr.is_space x). Qed.

(** Leading whitespace of a text that does not end in whitespace stops
    inside that text. *)
Lemma drop_while_space_app (u r : string) :
  Str.rstrip u = u -> u <> "" ->
  exists y v, Str.drop_while Chr.is_space (u +:+ r) = String y (v +:+ r)
              /\ Str.mem y u = true.
Proof.
  induction u as [|x u IH]; [done|]. intros Hu _. rewrite sapp_cons. simpl.
  destruct (Chr.is_space x) eqn:Hx.
  - destruct u as [|x' u'].
    { apply rstrip_single in Hu. congruence. }
    destruct IH as (y & v & Hd & Hy); [by eapply rstrip_tail|done|].
    exists y, v. split; [done|]. rewrite Hy. apply orb_true_r.
  - exists x, u. split; [done|]. by rewrite Ascii.eqb_refl.
Qed.

(** A text without an opening parenthesis that does not end in whitespace
    is passed over by the substitution. *)
Lemma sub_go_title (t r : string) :
  Str.mem "(" t = false -> Str.rstrip t = t ->
  Re.sub_go Re.paren_tag 0 (t +:+ r) = t +:+ Re.sub_go Re.paren_tag 0 r.
Proof.
  induction t as [|x t IH]; [done|]. intros Hm Hr.
  rewrite !sapp_cons. cbn [Re.sub_go].
  assert (Re.match_here Re.paren_tag (String x (t +:+ r)) = None) as ->.
  { rewrite paren_tag_here.
    destruct (drop_while_space_app (String x t) r Hr) as (y & v & Hd & Hy);
      [done|].
    rewrite sapp_cons in Hd. rewrite Hd.
    destruct (Ascii.eqb_spec "(" y) as [<-|]; [congruence|done]. }
  simpl in Hm. apply orb_false_iff in Hm as [_ Hm].
  by rewrite IH by (done || by eapply rstrip_tail).
Qed.

Lemma sub_go_match re x (s : string) k g :
  Re.match_here re (String x s) = Some (S k, g) ->
  Re.sub_go re 0 (String x s) = Re.sub_go re k s.
Proof. intros Hm. cbn [Re.sub_go]. by rewrite Hm. Qed.

Lemma sub_go_skip re (u r : string) :
  Re.sub_go re (String.length u) (u +:+ r) = Re.sub_go re 0 r.
Proof.
  induction u as [|x u IH]; [by destruct r|]. by rewrite sapp_cons.
Qed.

Lemma all_not_chr c (s : string) :
  Str.mem c s = false -> Str.all (Re.not_chr c) s = true.
Proof.
  induction s as [|x s IH]; [done|]. simpl.
  intros [Hx Hs]%orb_false_iff. unfold Re.not_chr at 1.
  by rewrite (Ascii.eqb_sym c x), Hx, IH.
Qed.

(** One tag with the space before it is one match. *)
Lemma paren_tag_on_tag (tag r : string) :
  Str.mem ")" tag = false ->
  Re.match_here Re.paren_tag (" (" +:+ tag +:+ ")" +:+ r)
  = Some (S (String.length ("(" +:+ tag +:+ ")")), "").
Proof.
  intros Htag. rewrite paren_tag_here.
  change (" (" +:+ tag +:+ ")" +:+ r)
    with (String " " (String "(" (tag +:+ ")" +:+ r))).
  cbn [Str.drop_while Str.take_while]. change (Chr.is_space " ") with true.
  change (Chr.is_space "(") with false. cbn [Ascii.eqb Bool.eqb].
  rewrite drop_while_app, take_while_app by by apply all_not_chr.
  change (")" +:+ r) with (String ")" r). simpl.
  rewrite sapp_nil_r, !slength_app. simpl. do 2 f_equal; lia.
Qed.

Lemma sub_go_tags (tags : list string) (r : string) :
  Forall (fun tag => Str.mem ")" tag = false) tags ->
  Re.sub_go Re.paren_tag 0 (tags_str tags +:+ r) = Re.sub_go Re.paren_tag 0 r.
Proof.
  induction 1 as [|tag tags Htag _ IH]; [done|].
  cbn [tags_str]. rewrite !sapp_assoc.
  transitivity
    (Re.sub_go Re.paren_tag (String.length ("(" +:+ tag +:+ ")"))
       (("(" +:+ tag +:+ ")") +:+ (tags_str tags +:+ r)));
    [|by rewrite sub_go_skip].
  pose proof (paren_tag_on_tag tag (tags_str tags +:+ r) Htag) as Hm.
  change (" (" +:+ tag +:+ ")" +:+ tags_str tags +:+ r)
    with (String " " (String "(" (tag +:+ ")" +:+ tags_str tags +:+ r)))
    in Hm |- *.
  rewrite (sub_go_match _ _ _ _ _ Hm). f_equal. by rewrite !sapp_assoc.
Qed.

Lemma prefix_cons x p y (s : string) :
  String.prefix (String x p) (String y s) = Ascii.eqb x y && String.prefix p s.
Proof.
  cbn [String.prefix]. destruct (ascii_dec x y) as [->|Hne].
  - by rewrite Ascii.eqb_refl.
  - by apply Ascii.eqb_neq in Hne as ->.
Qed.

Lemma prefix_nil_r x (p : string) : String.prefix (String x p) "" = false.
Proof. reflexivity. Qed.

(** No occurrence of [".zip"] straddles the end of a text and the
    extension that follows it. *)
Lemma replace_zip_suffix (t : string) :
  Str.contains ".zip" t = false -> Str.replace ".zip" "" (t +:+ ".zip") = t.
Proof.
  unfold Str.replace. induction t as [|x t IH]; [done|].
  rewrite contains_cons. intros [Hp Hc]%orb_false_iff.
  rewrite sapp_cons. cbn [Str.replace_go].
  assert (String.prefix ".zip" (String x (t +:+ ".zip")) = false) as ->.
  { destruct t as [|a [|b [|c t]]];
      repeat first [rewrite prefix_cons in Hp | rewrite prefix_nil_r in Hp
                   | rewrite prefix_nil in Hp];
      repeat first [rewrite sapp_cons | rewrite sapp_nil_l | rewrite prefix_cons
                   | rewrite prefix_nil_r | rewrite prefix_nil];
      repeat match goal with
             | |- context [Ascii.eqb ?a ?b] =>
                 destruct (Ascii.eqb_spec a b); subst; simpl in *; try done
             end. }
  by rewrite IH.
Qed.

End NormalForm.

Section NormalFormMore.

Lemma strip_fixed_rstrip (t : string) : Str.strip t = t -> Str.rstrip t = t.
Proof.
  intros Ht. rewrite <- Ht at 1. unfold Str.strip.
  rewrite rstrip_idem. exact Ht.
Qed.

Lemma after_last_slash_unique (p q a b : string) :
  p +:+ "/" +:+ a = q +:+ "/" +:+ b ->
  Str.mem "/" a = false -> Str.mem "/" b = false -> a = b.
Proof.
  revert q. induction p as [|x p IH]; intros [|y q] Heq Ha Hb.
  - change (String "/" a = String "/" b) in Heq. by simplify_eq.
  - rewrite sapp_cons in Heq.
    change (String "/" a = String y (q +:+ "/" +:+ b)) in Heq.
    injection Heq as <- ->.
    rewrite mem_app in Ha. simpl in Ha. by rewrite orb_true_r in Ha.
  - rewrite sapp_cons in Heq.
    change (String x (p +:+ "/" +:+ a) = String "/" b) in Heq.
    injection Heq as -> <-.
    rewrite mem_app in Hb. simpl in Hb. by rewrite orb_true_r in Hb.
  - rewrite !sapp_cons in Heq. injection Heq as _ Heq. by eapply IH.
Qed.

(** The filename of a link is what follows its last slash. *)
Lemma last_segment_app (p name : string) :
  Str.mem "/" name = false -> Str.last_segment (p +:+ "/" +:+ name) = name.
Proof.
  intros Hname.
  destruct (last_segment_spec (p +:+ "/" +:+ name)) as [Hm [Heq|[q Heq]]].
  - rewrite <- Heq, mem_app in Hm. simpl in Hm. by rewrite orb_true_r in Hm.
  - symmetry. by eapply after_last_slash_unique.
Qed.

End NormalFormMore.

(** The tags and the extension are all that normalization removes from a
    filename built from a clean title. *)
Lemma tagged_name_normalizes (t : string) (tags : list string) :
  Str.mem "(" t = false -> Str.contains ".zip" t = false -> Str.strip t = t ->
  Forall (fun tag => Str.mem ")" tag = false) tags ->
  get_canonical_name (t +:+ tags_str tags +:+ ".zip") = t.
Proof.
  intros Hparen Hzip Hstrip Htags. unfold get_canonical_name, Re.sub_empty.
  rewrite sub_go_title by (done || by apply strip_fixed_rstrip).
  rewrite sub_go_tags by done.
  change (Re.sub_go Re.paren_tag 0 ".zip") with ".zip".
  by rewrite replace_zip_suffix.
Qed.

(** X1: the canonical name is the filename with characters deleted and
    nothing added; it holds no parenthetical group and has no whitespace
    at either end. *)
Theorem canonical_name_shape (f : string) :
  subseq (get_canonical_name f) f
  /\ has_group (get_canonical_name f) = false
  /\ Str.strip (get_canonical_name f) = get_canonical_name f.
Proof.
  split; [|split; [apply canonical_no_group|apply canonical_stripped]].
  unfold get_canonical_name, Str.replace, Re.sub_empty.
  eapply subseq_trans; [apply subseq_strip|].
  eapply subseq_trans; [apply subseq_replace_go|apply subseq_sub_go].
Qed.

(** X2: a filename made of a title, any number of tags [" (tag)"] and the
    [".zip"] extension normalizes to the title, when the title has no
    opening parenthesis, no [".zip"] and no whitespace at its ends and no
    tag holds a closing parenthesis. *)
Theorem canonical_name_of_tagged (t : string) (tags : list string) :
  Str.mem "(" t = false -> Str.contains ".zip" t = false -> Str.strip t = t ->
  Forall (fun tag => Str.mem ")" tag = false) tags ->
  get_canonical_name (t +:+ tags_str tags +:+ ".zip") = t.
Proof. apply tagged_name_normalizes. Qed.

Lemma canonical_name_of_tagged_witness :
  get_canonical_name
    ("Super Mario Bros. 3" +:+ tags_str ["USA"; "Rev 1"] +:+ ".zip")
  = "Super Mario Bros. 3".
Proof.
  apply (canonical_name_of_tagged "Super Mario Bros. 3" ["USA"; "Rev 1"]);
    [reflexivity|reflexivity|reflexivity|].
  repeat constructor.
Defined.

(** X3: all the variants of a title in one directory get the same key:
    the key of a link [base/title (tag)....zip] is the title. *)
Theorem variants_share_key (base t : string) (tags : list string) :
  Str.mem "(" t = false -> Str.contains ".zip" t = false -> Str.strip t = t ->
  Str.mem "/" t = false ->
  Forall (fun tag => Str.mem ")" tag = false /\ Str.mem "/" tag = false) tags ->
  canonical_of (base +:+ "/" +:+ t +:+ tags_str tags +:+ ".zip") = t.
Proof.
  intros Hparen Hzip Hstrip Hslash Htags. unfold canonical_of. cbv zeta.
  rewrite last_segment_app.
  - apply tagged_name_normalizes; [done..|].
    eapply Forall_impl; [exact Htags|]. by intros tag [? _].
  - rewrite !mem_app, Hslash. simpl. rewrite orb_false_r.
    induction Htags as [|tag tags [_ Htag] _ IH]; [done|].
    cbn [tags_str]. rewrite !mem_app, Htag, IH. done.
Qed.

Lemma variants_share_key_witness :
  canonical_of ("http://x/roms" +:+ "/" +:+ "Zelda" +:+ tags_str ["USA"] +:+ ".zip")
  = canonical_of
      ("http://x/roms" +:+ "/" +:+ "Zelda" +:+ tags_str ["USA"; "Rev 2"] +:+ ".zip").
Proof.
  rewrite (variants_share_key "http://x/roms" "Zelda" ["USA"]);
    [|reflexivity|reflexivity|reflexivity|reflexivity|repeat constructor].
  rewrite (variants_share_key "http://x/roms" "Zelda" ["USA"; "Rev 2"]);
    [|reflexivity|reflexivity|reflexivity|reflexivity|repeat constructor].
  reflexivity.
Defined.

(** * Further properties: the canonical map *)

Section MapMore.

Lemma dict_keys_append_eq k v (d : dict) :
  dict_keys (dict_append k v d)
  = if bool_decide (k ∈ dict_keys d) then dict_keys d else dict_keys d ++ [k].
Proof.
  unfold dict_keys. induction d as [|[k0 vs] d IH]; [done|].
  cbn [dict_append]. destruct (String.eqb_spec k0 k) as [->|Hne].
  - cbn [fmap list_fmap fst]. rewrite bool_decide_true; [done|left].
  - cbn [fmap list_fmap fst]. fold (fmap (M:=list) (@fst string (list string))).
    rewrite IH. case_bool_decide as Hin.
    + rewrite bool_decide_true; [done|by right].
    + rewrite bool_decide_false; [done|].
      intros [?|?]%elem_of_cons; [by subst|done].
Qed.

Lemma map_fold_keys_nodup (ls : list string) (d : dict) :
  NoDup (dict_keys d) -> NoDup (dict_keys (fold_left map_step ls d)).
Proof.
  revert d. induction ls as [|l ls IH]; intros d Hd; [done|].
  cbn [fold_left]. apply IH. unfold map_step. rewrite dict_keys_append_eq.
  case_bool_decide as Hin; [done|].
  apply NoDup_app. split; [done|]. split; [|apply NoDup_singleton].
  intros k Hk ->%list_elem_of_singleton. done.
Qed.

Lemma map_fold_group (ls : list string) (d : dict) k :
  default [] (dict_get k (fold_left map_step ls d))
  = default [] (dict_get k d)
    ++ List.filter (fun l => String.eqb (canonical_of l) k) ls.
Proof.
  revert d. induction ls as [|l ls IH]; intros d; cbn [fold_left List.filter].
  - by rewrite app_nil_r.
  - rewrite IH. unfold map_step. rewrite dict_get_append.
    destruct (String.eqb_spec (canonical_of l) k) as [<-|Hne].
    + rewrite decide_True by done. simpl. by rewrite <- (assoc_L (++)).
    + by rewrite decide_False by done.
Qed.

(** Every key has a non-empty group of links with that canonical name. *)
Lemma canonical_map_is_dict_aux (links : list string) (region k : string) :
  k ∈ dict_keys (build_canonical_map links region) ->
  exists l ls,
    dict_get k (build_canonical_map links region) = Some (l :: ls)
    /\ Forall (fun l' => canonical_of l' = k) (l :: ls).
Proof.
  intros Hk. pose proof Hk as Hsome. apply dict_keys_get in Hsome as [vs Hvs].
  apply canonical_map_keys in Hk as (l0 & Hl0 & Hreg & ->).
  assert (l0 ∈ vs) as Hin.
  { pose proof (proj2 (canonical_map_item links region (canonical_of l0) l0))
      as H. rewrite Hvs in H. apply H. done. }
  destruct vs as [|l ls]; [by apply elem_of_nil in Hin|].
  exists l, ls. split; [done|]. apply Forall_forall. intros l' Hl'.
  pose proof (proj1 (canonical_map_item links region (canonical_of l0) l'))
    as H. rewrite Hvs in H. symmetry. by apply H.
Qed.

End MapMore.

(** X4: the canonical map is a dictionary: no key occurs twice; every key
    has a non-empty group and is the canonical name of each link in its
    group; a lookup of another title finds nothing. *)
Theorem canonical_map_is_dict (links : list string) (region : string) :
  let m := build_canonical_map links region in
  NoDup (dict_keys m)
  /\ (forall k, k ∈ dict_keys m ->
                exists l ls, dict_get k m = Some (l :: ls)
                             /\ Forall (fun l' => canonical_of l' = k) (l :: ls))
  /\ (forall k, k ∉ dict_keys m -> dict_get k m = None).
Proof.
  cbv zeta. split; [|split].
  - unfold build_canonical_map. apply map_fold_keys_nodup. constructor.
  - apply canonical_map_is_dict_aux.
  - intros k Hk. destruct (dict_get k _) as [vs|] eqn:Hget; [|done].
    destruct Hk. apply dict_keys_get. by eexists.
Qed.

(** X5: the group of a title is the list of the links of the region with
    that canonical name, in discovery order: no link is dropped or
    repeated, and none moves to another group. *)
Theorem canonical_map_group (links : list string) (region : string) (k : string) :
  dict_item k (build_canonical_map links region)
  = List.filter (fun l => String.eqb (canonical_of l) k)
      (regional_links links region).
Proof. unfold dict_item, build_canonical_map. by rewrite map_fold_group. Qed.

(** X6: when the region tag occurs in no link, the map is empty and
    [filter_links] matches nothing, whatever the requested titles and the
    scorer. *)
Theorem no_regional_link_no_match
    (ratio : string -> string -> Z) (links games : list string) (region : string) :
  (forall l, l ∈ links -> Str.contains (region_str region) l = false) ->
  build_canonical_map links region = []
  /\ filter_links ratio links games region = ([], ∅).
Proof.
  intros Hnone.
  assert (regional_links links region = []) as Hreg.
  { unfold regional_links. induction links as [|l ls IH]; [done|].
    cbn [List.filter]. rewrite (Hnone l) by left.
    apply IH. intros l' Hl'. apply Hnone. by right. }
  assert (build_canonical_map links region = []) as Hmap.
  { unfold build_canonical_map. by rewrite Hreg. }
  split; [done|].
  unfold filter_links, filter_loop. rewrite Hmap.
  assert (fold_left (filter_step ratio [] (dict_keys [])) games ([], ∅)
          = ([], ∅)) as ->;
    [|cbn [fst snd]; by rewrite list_to_set_nil, elements_empty].
  induction games as [|g gs IH]; [done|]. cbn [fold_left]. exact IH.
Qed.

Lemma no_regional_link_no_match_witness :
  filter_links exact_ratio ["http://x/A (Europe).zip"] ["A"] "USA" = ([], ∅).
Proof.
  apply (no_regional_link_no_match exact_ratio
           ["http://x/A (Europe).zip"] ["A"] "USA").
  intros l Hl. apply list_elem_of_singleton in Hl. subst l. reflexivity.
Defined.

(** * Further properties: the selector and [filter_links] *)

Section FilterMore.

Variable ratio : string -> string -> Z.

Lemma select_some_member (vs : list string) l :
  select_best_version vs = Some l -> l ∈ vs.
Proof.
  intros Hsel. destruct vs as [|v vs]; [done|].
  destruct (select_nonempty (v :: vs)) as (i & b & Hb & Hi & _); [done|].
  rewrite Hsel in Hb. injection Hb as <-. by eapply list_elem_of_lookup_2.
Qed.

Lemma rev_bonus_nonneg fn b : rev_bonus fn b -> (0 <= b)%Z.
Proof.
  intros [_|p ds (q & _ & _ & Hds) _]; [done|]. by apply int_nonneg.
Qed.

(** What the matcher returns for a title is a key of the map, so the lookup
    finds a group, the group has a best version, and that version is not
    the empty string. *)
Lemma matched_key_selected links region game k sc :
  extractOne ratio game (dict_keys (build_canonical_map links region)) 85
  = Some (k, sc) ->
  exists vs best,
    dict_get k (build_canonical_map links region) = Some vs
    /\ select_best_version vs = Some best /\ best ∈ vs
    /\ truthy best = true /\ (85 <= sc)%Z.
Proof.
  intros He. apply extractOne_key in He as (Hk & -> & Hsc).
  destruct (canonical_map_is_dict_aux links region k Hk) as (l & ls & Hget & Hall).
  destruct (select_nonempty (l :: ls)) as (i & best & Hsel & Hi & _); [done|].
  apply list_elem_of_lookup_2 in Hi.
  exists (l :: ls), best. split; [done|]. split; [done|]. split; [done|].
  split; [|done].
  assert (best ∈ default [] (dict_get k (build_canonical_map links region)))
    as Hin by by rewrite Hget.
  apply canonical_map_item in Hin as (_ & Hreg & _).
  unfold truthy. by rewrite (region_link_truthy _ _ Hreg).
Qed.

Lemma selected_for_iff links region game l :
  selected_for ratio (build_canonical_map links region) game = Some l
  <-> exists k sc,
        extractOne ratio game (dict_keys (build_canonical_map links region)) 85
        = Some (k, sc)
        /\ select_best_version (dict_item k (build_canonical_map links region))
           = Some l.
Proof.
  unfold selected_for. split.
  - destruct (extractOne _ _ _ _) as [[k sc]|] eqn:He; [|done].
    destruct (select_best_version _) as [b|] eqn:Hsel; [|done].
    destruct (truthy b); [|done]. intros [= ->]. by exists k, sc.
  - intros (k & sc & He & Hsel). rewrite He, Hsel.
    destruct (matched_key_selected _ _ _ _ _ He)
      as (vs & best & Hget & Hsel' & _ & Htruthy & _).
    unfold dict_item in Hsel. rewrite Hget in Hsel. simpl in Hsel.
    rewrite Hsel in Hsel'. injection Hsel' as <-. by rewrite Htruthy.
Qed.

Lemma size_add_le (x : string) (X : gset string) : size ({[x]} ∪ X) <= S (size X).
Proof.
  rewrite size_union_alt, size_singleton.
  pose proof (subseteq_size (X ∖ {[x]}) X) as H.
  assert (X ∖ {[x]} ⊆ X) as Hsub by apply subseteq_difference_l, reflexivity.
  specialize (H Hsub). lia.
Qed.

Lemma size_add_in (x : string) (X : gset string) :
  x ∈ X -> {[x]} ∪ X = X.
Proof. intros Hx. apply subseteq_union_1_L. by apply singleton_subseteq_l. Qed.

Lemma size_add_new (x : string) (X : gset string) :
  x ∉ X -> size ({[x]} ∪ X) = S (size X).
Proof.
  intros Hx. rewrite size_union, size_singleton; [done|].
  by apply disjoint_singleton_l.
Qed.

Lemma selected_sizes (cm : dict) (games : list string) :
  size (list_to_set (omap (selected_for ratio cm) games) : gset string)
  <= size (list_to_set (matched_of ratio cm games) : gset string)
  /\ size (list_to_set (matched_of ratio cm games) : gset string)
     <= List.length games.
Proof.
  induction games as [|g gs [IH1 IH2]]; [done|].
  unfold matched_of in *. cbn [omap list_omap List.filter List.length].
  destruct (selected_for ratio cm g) as [l|] eqn:Hg.
  - rewrite bool_decide_true by (by eexists). rewrite !list_to_set_cons.
    set (S1 := list_to_set (omap (selected_for ratio cm) gs) : gset string) in *.
    set (S2 := list_to_set (List.filter _ gs) : gset string) in *.
    destruct (decide (g ∈ S2)) as [Hin|Hnew].
    + assert (l ∈ S1) as Hl.
      { apply elem_of_list_to_set, list_elem_of_omap. exists g. split; [|done].
        apply elem_of_list_to_set, list_elem_of_In, filter_In in Hin as [Hin _].
        by apply list_elem_of_In. }
      rewrite (size_add_in _ _ Hin), (size_add_in _ _ Hl). lia.
    + pose proof (size_add_le l S1). rewrite (size_add_new _ _ Hnew). lia.
  - rewrite bool_decide_false by (by intros [? ?]). lia.
Qed.

End FilterMore.

(** X7: [filter_links] returns exactly the titles for which some canonical
    title scores 85 or more, and exactly the links that are the best
    version of the group the matcher picked for one of the titles. *)
Theorem filter_links_result
    (ratio : string -> string -> Z) (links games : list string) (region : string) :
  let m := build_canonical_map links region in
  (forall g, g ∈ (filter_links ratio links games region).2
             <-> g ∈ games
                 /\ exists c, c ∈ dict_keys m /\ (85 <= ratio g c)%Z)
  /\ (forall l, l ∈ (filter_links ratio links games region).1
                <-> exists g k sc,
                      g ∈ games
                      /\ extractOne ratio g (dict_keys m) 85 = Some (k, sc)
                      /\ select_best_version (dict_item k m) = Some l).
Proof.
  cbv zeta. unfold filter_links. cbn [fst snd]. rewrite filter_loop_spec.
  cbn [fst snd]. split.
  - intros g. by rewrite elem_of_list_to_set, matched_of_spec.
  - intros l. rewrite elem_of_elements, elem_of_list_to_set, list_elem_of_omap.
    split.
    + intros (g & Hg & (k & sc & He & Hsel)%selected_for_iff).
      by exists g, k, sc.
    + intros (g & k & sc & Hg & He & Hsel). exists g. split; [done|].
      apply selected_for_iff. by exists k, sc.
Qed.





(** X10: [filter_links] returns at most one link per matched title, and
    matches at most as many titles as were requested. *)
Theorem filter_links_sizes
    (ratio : string -> string -> Z) (links games : list string) (region : string) :
  List.length (filter_links ratio links games region).1
  <= size (filter_links ratio links games region).2
  /\ size (filter_links ratio links games region).2 <= List.length games.
Proof.
  unfold filter_links. rewrite filter_loop_spec. cbn [fst snd].
  apply (selected_sizes ratio).
Qed.

(** X11: a candidate with a penalty tag is selected in the presence of a
    candidate without one only when it carries a revision tag of 50 or
    more. *)
Theorem penalized_needs_revision (matches : list string) (best m : string) :
  select_best_version matches = Some best ->
  m ∈ matches ->
  ~ tagged (Str.lower (Str.last_segment m)) ->
  tagged (Str.lower (Str.last_segment best)) ->
  exists p ds, rev_tag_at (Str.lower (Str.last_segment best)) p ds
               /\ (50 <= Str.int ds)%Z.
Proof.
  intros Hsel Hm Hclean Htag.
  destruct (select_nonempty matches) as (i & b & Hb & _ & Hmax & _).
  { intros ->. by apply elem_of_nil in Hm. }
  rewrite Hsel in Hb. injection Hb as <-.
  apply list_elem_of_lookup_1 in Hm as [j Hj]. apply Hmax in Hj.
  destruct (score_correct m) as (pm & bm & Hpm & Hbm & Hsm).
  destruct (score_correct best) as (pb & bb & Hpb & Hbb & Hsb).
  destruct Hpm as [?|_]; [done|]. destruct Hpb as [_|?]; [|done].
  pose proof (rev_bonus_nonneg _ _ Hbm).
  destruct Hbb as [_|p ds Hp _]; [lia|].
  exists p, ds. split; [done|]. lia.
Qed.

Lemma penalized_needs_revision_witness :
  exists p ds,
    rev_tag_at (Str.lower (Str.last_segment "A (USA) (Beta) (Rev 60).zip")) p ds
    /\ (50 <= Str.int ds)%Z.
Proof.
  apply (penalized_needs_revision
           ["A (USA).zip"; "A (USA) (Beta) (Rev 60).zip"]
           "A (USA) (Beta) (Rev 60).zip" "A (USA).zip").
  - reflexivity.
  - left.
  - intros H. apply tagged_spec in H. discriminate H.
  - apply tagged_spec. reflexivity.
Defined.

(** * Further properties: links, games list, link file, archives *)

Section BoundaryFacts.

Lemma app_last_char (s s' : string) a b :
  s +:+ String a "" = s' +:+ String b "" -> a = b.
Proof.
  revert s'. induction s as [|x s IH]; intros [|y s'] Heq.
  - change (String a "" = String b "") in Heq. by simplify_eq.
  - rewrite sapp_cons in Heq. change (String a "" = String y (s' +:+ String b ""))
      in Heq. injection Heq as _ Heq. by destruct s'.
  - rewrite sapp_cons in Heq. change (String x (s +:+ String a "") = String b "")
      in Heq. injection Heq as _ Heq. by destruct s.
  - rewrite !sapp_cons in Heq. injection Heq as _ Heq. by eapply IH.
Qed.

(** A name that ends in [".zip"] does not end in a slash: the first test of
    the loop of [get_links] never decides. *)
Lemma zip_not_slash (href : string) :
  Str.endswith ".zip" href = true -> Str.endswith "/" href = false.
Proof.
  intros [t ->]%endswith_spec.
  destruct (Str.endswith "/" (t +:+ ".zip")) eqn:He; [|done].
  apply endswith_spec in He as [t' He].
  change ".zip" with (".zi" +:+ "p") in He. rewrite <- sapp_assoc in He.
  by apply app_last_char in He.
Qed.

Lemma get_links_fold unquote urljoin url (hrefs acc : list string) :
  fold_left (links_step unquote urljoin url) hrefs acc
  = acc ++ ((fun h => urljoin url (unquote h))
              <$> List.filter (fun h => Str.endswith ".zip" h) hrefs).
Proof.
  revert acc. induction hrefs as [|h hs IH]; intros acc;
    cbn [fold_left List.filter].
  - by rewrite app_nil_r.
  - rewrite IH. unfold links_step.
    destruct (Str.endswith ".zip" h) eqn:Hz.
    + rewrite (zip_not_slash h Hz). cbn [negb andb fmap list_fmap].
      by rewrite <- (assoc_L (++)).
    + by rewrite andb_false_r.
Qed.

Lemma file_lines_line (l rest : string) :
  Str.mem "010" l = false ->
  file_lines (l +:+ nl +:+ rest) = (l +:+ nl) :: file_lines rest.
Proof.
  induction l as [|x l IH]; [done|]. simpl. intros [Hx Hl]%orb_false_iff.
  rewrite !sapp_cons. cbn [file_lines]. by rewrite Hx, IH.
Qed.

Lemma rstrip_newline (l : string) : Str.rstrip (l +:+ nl) = Str.rstrip l.
Proof.
  induction l as [|x l IH]; [done|]. rewrite sapp_cons.
  cbn [Str.rstrip]. by rewrite IH.
Qed.

Lemma strip_line (l : string) :
  Str.strip l = l -> l <> "" -> Str.strip (l +:+ nl) = l.
Proof.
  intros Hl Hne. pose proof (lstrip_strip l) as Hls. rewrite Hl in Hls.
  unfold Str.strip. destruct l as [|x l]; [done|].
  unfold Str.lstrip in *. rewrite sapp_cons. simpl in Hls |- *.
  destruct (Chr.is_space x) eqn:Hx.
  - apply (f_equal String.length) in Hls.
    pose proof (subseq_length _ _ (subseq_drop_while Chr.is_space l)).
    simpl in Hls. lia.
  - rewrite <- sapp_cons, rstrip_newline. by apply strip_fixed_rstrip.
Qed.

Lemma rfind_none c (s : string) : Str.mem c s = false -> Str.rfind c s = None.
Proof.
  induction s as [|x s IH]; [done|]. simpl.
  intros [Hx Hs]%orb_false_iff. by rewrite IH, Hx.
Qed.

Lemma rfind_app c (s r : string) :
  Str.mem c r = false ->
  Str.rfind c (s +:+ String c r) = Some (String.length s).
Proof.
  intros Hr. induction s as [|x s IH].
  - change ("" +:+ String c r) with (String c r). simpl.
    by rewrite (rfind_none _ _ Hr), Ascii.eqb_refl.
  - rewrite sapp_cons. simpl. by rewrite IH.
Qed.

Lemma take_nonempty n x (s : string) : Str.take (S n) (String x s) <> "".
Proof. done. Qed.

(** The names whose suffix is [".zip"]: a non-empty stem and [".zip"]. *)
Lemma suffix_zip_iff nm :
  Path.name nm = nm ->
  Path.suffix nm = ".zip" <-> exists t, t <> "" /\ nm = t +:+ ".zip".
Proof.
  intros Hname. unfold Path.suffix. rewrite Hname. cbv zeta. split.
  - unfold Path.suffix_index.
    destruct (Str.rfind "." nm) as [i|]; [|done].
    destruct (0 <? i)%nat eqn:Hi; [|done]. cbn [andb].
    destruct (i <? String.length nm - 1)%nat; [|done]. intros Hdrop.
    exists (Str.take i nm). pose proof (take_drop i nm) as Htd.
    rewrite Hdrop in Htd. split; [|done].
    apply Nat.ltb_lt in Hi. destruct i as [|i]; [lia|].
    destruct nm as [|x nm]; [done|]. done.
  - intros (t & Ht & ->). unfold Path.suffix_index.
    change ".zip" with (String "." "zip"). rewrite rfind_app by done.
    rewrite slength_app.
    assert (0 < String.length t)%nat as Hlen by (destruct t; [done|simpl; lia]).
    rewrite (proj2 (Nat.ltb_lt _ _) Hlen).
    assert ((String.length t <? String.length t + String.length (String "." "zip") - 1)%nat
            = true) as -> by (apply Nat.ltb_lt; simpl; lia).
    cbn [andb]. apply drop_app_length.
Qed.

End BoundaryFacts.

(** X12: [get_links] returns nothing when the request fails; otherwise it
    returns, in page order, one absolute link for each [href] that ends in
    [".zip"], and nothing else: the test on a trailing slash never
    excludes anything. *)
Theorem get_links_result
    (unquote : string -> string) (urljoin : string -> string -> string)
    (url : string) (hrefs : list string) :
  get_links unquote urljoin url None = []
  /\ get_links unquote urljoin url (Some hrefs)
     = (fun h => urljoin url (unquote h))
         <$> List.filter (fun h => Str.endswith ".zip" h) hrefs
  /\ List.length (get_links unquote urljoin url (Some hrefs))
     <= List.length hrefs.
Proof.
  split; [done|].
  assert (get_links unquote urljoin url (Some hrefs)
          = (fun h => urljoin url (unquote h))
              <$> List.filter (fun h => Str.endswith ".zip" h) hrefs) as Heq.
  { unfold get_links. by rewrite get_links_fold. }
  split; [done|]. rewrite Heq, length_fmap. clear Heq.
  induction hrefs as [|h hs IH]; [done|]. cbn [List.filter].
  destruct (Str.endswith ".zip" h); cbn [List.length]; lia.
Qed.


(** X14: the link file has one link per line, in order, when no link holds
    a newline; and a list of titles written that way is read back
    unchanged by [read_games_list] when the titles are not empty and have
    no whitespace at their ends. *)
Theorem write_links_lines (links : list string) :
  Forall (fun l => Str.mem "010" l = false) links ->
  file_lines (write_links_to_file links) = (fun l => l +:+ nl) <$> links
  /\ (Forall (fun l => l <> "" /\ Str.strip l = l) links ->
      read_games_list (Some (write_links_to_file links)) = links).
Proof.
  intros Hnl.
  assert (file_lines (write_links_to_file links) = (fun l => l +:+ nl) <$> links)
    as Hlines.
  { induction Hnl as [|l ls Hl _ IH]; [done|]. cbn [write_links_to_file].
    fold nl. rewrite (file_lines_line l _ Hl), IH. done. }
  split; [done|]. intros Hok. unfold read_games_list. rewrite Hlines.
  clear Hlines Hnl. induction Hok as [|l ls [Hne Hl] _ IH]; [done|].
  cbn [fmap list_fmap List.filter]. rewrite (strip_line l Hl Hne).
  apply String.eqb_neq in Hne. rewrite Hne. cbn [negb fmap list_fmap].
  rewrite (strip_line l Hl) by by apply String.eqb_neq. f_equal. exact IH.
Qed.

Lemma write_links_lines_witness :
  file_lines (write_links_to_file ["http://x/A (USA).zip"; "http://x/B (USA).zip"])
  = ["http://x/A (USA).zip" +:+ nl; "http://x/B (USA).zip" +:+ nl].
Proof.
  apply (write_links_lines ["http://x/A (USA).zip"; "http://x/B (USA).zip"]).
  repeat constructor.
Defined.

(** X15: [unzip_and_cleanup] runs [unzip] on every entry whose suffix is
    [".zip"] and on nothing else, whatever happened to the entries before
    it; it deletes an archive only after that archive was extracted; and
    it always reaches its last message. *)
Theorem unzip_and_cleanup_safe
    (entries : list string) (run_unzip : string -> unzip_result)
    (unlink_ok : string -> bool) :
  let t := unzip_and_cleanup entries run_unzip unlink_ok in
  (forall z, CUnzip z ∈ t <-> z ∈ entries /\ Path.suffix z = ".zip")
  /\ (forall z, CUnlink z ∈ t
                <-> z ∈ entries /\ Path.suffix z = ".zip"
                    /\ run_unzip z = Extracted)
  /\ List.last t CPrintUnzipping = CPrintComplete.
Proof.
  cbv zeta. unfold unzip_and_cleanup. cbv zeta.
  set (zips := List.filter _ entries).
  assert (forall z, z ∈ zips <-> z ∈ entries /\ Path.suffix z = ".zip") as Hz.
  { intros z. unfold zips. rewrite !list_elem_of_In, filter_In.
    by rewrite String.eqb_eq. }
  assert (forall e, e ∈ flat_map (unzip_one run_unzip unlink_ok) zips
                    <-> exists z, z ∈ zips /\ e ∈ unzip_one run_unzip unlink_ok z)
    as Hflat.
  { intros e. rewrite list_elem_of_In, in_flat_map.
    split; intros (z & Hin & He); exists z;
      by rewrite ?list_elem_of_In in *. }
  split; [|split].
  - intros z. rewrite <- Hz, !elem_of_app, Hflat, !list_elem_of_singleton.
    split.
    + intros [?|[(z' & Hz' & He)|?]]; [done| |done].
      unfold unzip_one in He. apply elem_of_cons in He as [[= ->]|He]; [done|].
      destruct (run_unzip z'), (unlink_ok z');
        rewrite ?elem_of_cons, ?elem_of_nil in He;
        repeat (destruct He as [He|He]; [done|]); done.
    + intros Hin. right. left. exists z. split; [done|]. left.
  - intros z. rewrite !elem_of_app, Hflat, !list_elem_of_singleton. split.
    + intros [?|[(z' & Hz' & He)|?]]; [done| |done].
      apply Hz in Hz' as [Hin Hsuf].
      unfold unzip_one in He. apply elem_of_cons in He as [?|He]; [done|].
      destruct (run_unzip z') eqn:Hrun, (unlink_ok z');
        rewrite ?elem_of_cons, ?elem_of_nil in He;
        repeat (destruct He as [He|He]; [by simplify_eq|]); done.
    + intros (Hin & Hsuf & Hrun). right. left. exists z.
      split; [by apply Hz|]. unfold unzip_one. rewrite Hrun. right. left.
  - rewrite app_assoc. apply last_last.
Qed.

(** X16: the entries [unzip_and_cleanup] takes for archives are the names
    made of a non-empty stem and [".zip"]; an entry named just [".zip"]
    is left alone. *)
Theorem archives_are_named_zip (nm : string) :
  Path.valid_name nm = true ->
  (Path.suffix nm = ".zip" <-> exists t, t <> "" /\ nm = t +:+ ".zip")
  /\ unzip_and_cleanup [".zip"] (fun _ => Extracted) (fun _ => true)
     = [CPrintUnzipping; CPrintComplete].
Proof.
  intros Hvalid. split; [|done].
  apply suffix_zip_iff. by apply valid_name_is_name.
Qed.

Lemma archives_are_named_zip_witness :
  Path.suffix "Zelda (USA).zip" = ".zip"
  <-> exists t, t <> "" /\ "Zelda (USA).zip" = t +:+ ".zip".
Proof. apply (archives_are_named_zip "Zelda (USA).zip"). reflexivity. Defined.

(** * Further properties: the two subcommands *)

Section CommandMore.

Lemma for_each_app {A} (xs ys : list A) (body : A -> cmd unit) :
  for_each (xs ++ ys) body = (for_each xs body ;; for_each ys body).
Proof.
  induction xs as [|x xs IH]; cbn [for_each app].
  - unfold mbind, cmd_bind, mret, cmd_ret. cbn [fst snd].
    by destruct (for_each ys body).
  - rewrite IH. unfold mbind, cmd_bind.
    destruct (body x) as [t [[]| | |]]; cbn [fst snd]; [|done..].
    destruct (for_each xs body) as [t' [[]| | |]]; cbn [fst snd]; [|done..].
    by rewrite (assoc_L (++)).
Qed.

Lemma rename_file_outcome (f : file) :
  (rename_file f).2
  = if Path.valid_name (new_name_of f) then Go tt else ValueError.
Proof.
  rewrite rename_file_cases. cbv zeta. fold (new_name_of f).
  destruct (Path.valid_name _); [|done]. by destruct (decide _).
Qed.

Lemma for_each_rename_go (fs : list file) :
  Forall (fun f => Path.valid_name (new_name_of f) = true) fs ->
  (for_each fs rename_file).2 = Go tt.
Proof.
  induction 1 as [|f fs Hf _ IH]; [done|]. cbn [for_each].
  unfold mbind, cmd_bind. pose proof (rename_file_outcome f) as Ho.
  rewrite Hf in Ho. destruct (rename_file f) as [t o]. cbn [snd] in Ho.
  subst o. cbn [fst snd]. exact IH.
Qed.

End CommandMore.

(** X17: a file whose new name would be empty or ["."] stops
    [rename_command] with a [ValueError]: the files before it are treated
    as usual, that file and all the files after it are left as they
    are. *)
Theorem rename_stops_at_invalid_name (pre post : list file) (bad : file) :
  Forall (fun f => Path.valid_name (new_name_of f) = true) pre ->
  Path.valid_name (new_name_of bad) = false ->
  rename_command true (pre ++ bad :: post)
  = (EPrint (MsgFilesToProcess (List.length (pre ++ bad :: post)))
       :: (for_each pre rename_file).1,
     ValueError).
Proof.
  intros Hpre Hbad. unfold rename_command. rewrite for_each_app.
  pose proof (for_each_rename_go pre Hpre) as Hgo.
  pose proof (rename_file_cases bad) as Hb. cbv zeta in Hb.
  fold (new_name_of bad) in Hb. rewrite Hbad in Hb.
  cbn [for_each]. rewrite Hb. unfold mbind, cmd_bind, print, emit.
  destruct (for_each pre rename_file) as [t o]. cbn [snd] in Hgo. subst o.
  cbn [fst snd]. by rewrite app_nil_r.
Qed.

Lemma rename_stops_at_invalid_name_witness :
  rename_command true
    ([File "roms" "Zelda, The (USA).zip"]
       ++ File "roms" "(USA)" :: [File "roms" "Mario (USA).zip"])
  = ([EPrint (MsgFilesToProcess 3);
      ERename "roms" "Zelda, The (USA).zip" "The Zelda.zip"], ValueError).
Proof.
  apply (rename_stops_at_invalid_name [File "roms" "Zelda, The (USA).zip"]
           [File "roms" "Mario (USA).zip"] (File "roms" "(USA)")).
  - repeat constructor.
  - reflexivity.
Defined.

(** X18: a file whose name is already clean is not renamed: when the stem
    holds no parenthetical group, does not end in [", The"] and has no
    whitespace at its ends, the new name is the old one. *)
Theorem clean_name_is_kept (f : file) :
  Path.valid_name (file_name f) = true ->
  has_group (Path.stem (file_name f)) = false ->
  Str.endswith ", The" (Path.stem (file_name f)) = false ->
  Str.strip (Path.stem (file_name f)) = Path.stem (file_name f) ->
  new_name_of f = file_name f /\ rename_file f = ([], Go tt).
Proof.
  intros Hvalid Hgroup Hthe Hstrip.
  assert (new_name_of f = file_name f) as Hnew.
  { unfold new_name_of, get_clean_name_for_rename. cbv zeta.
    rewrite (sub_no_group_id _ Hgroup), Hthe, Hstrip, stem_suffix.
    by apply valid_name_is_name. }
  split; [done|]. rewrite rename_file_cases. cbv zeta.
  fold (new_name_of f). rewrite Hnew, Hvalid. by rewrite decide_True.
Qed.

Lemma clean_name_is_kept_witness :
  new_name_of (File "roms" "The Zelda.zip") = "The Zelda.zip"
  /\ rename_file (File "roms" "The Zelda.zip") = ([], Go tt).
Proof.
  apply (clean_name_is_kept (File "roms" "The Zelda.zip")); reflexivity.
Defined.

(** X19: every run of the download command first creates the output
    directory and then checks the tools; when [aria2c] or [unzip] is
    missing it exits with status 1 right there, before anything is
    fetched, read, written or downloaded. *)
Theorem download_preflight
    (ratio : string -> string -> Z) (w : world) (args : download_args) :
  (exists t, trace_of (download_command ratio w args)
             = EMkdir (output_dir args) :: ERunChecks :: t)
  /\ (has_aria2c w && has_unzip w = false ->
      download_command ratio w args
      = ([EMkdir (output_dir args); ERunChecks], SysExit 1)).
Proof.
  unfold trace_of. rewrite download_command_cases. cbv zeta. split.
  - destruct (negb _); [by eexists|]. unfold preamble.
    destruct (is_empty (fetched_links w)); [by eexists|].
    destruct (is_empty (games_list w)); [by eexists|].
    destruct (is_empty _); by eexists.
  - by intros ->.
Qed.

Lemma download_preflight_witness :
  download_command exact_ratio
    (World true false ["http://x/A (USA).zip"] ["A"])
    (DownloadArgs "games.txt" "http://x/" "downloads" "USA" "links.txt" false)
  = ([EMkdir "downloads"; ERunChecks], SysExit 1).
Proof.
  apply (download_preflight exact_ratio
           (World true false ["http://x/A (USA).zip"] ["A"])
           (DownloadArgs "games.txt" "http://x/" "downloads" "USA" "links.txt"
              false)).
  reflexivity.
Defined.



(** * Further properties: scores and new names *)

Section ScoreMore.

Lemma select_state (l : list string) :
  l <> [] ->
  exists best, fold_left select_step l (None, (-1)%Z) = (Some best, score best)
               /\ select_best_version l = Some best.
Proof.
  intros Hne. destruct (select_fold l None (-1)%Z)
    as [[_ Hall]|(i & m & _ & Hr & _)].
  - destruct l as [|x l]; [done|].
    pose proof (Hall x (list_elem_of_here _ _)). pose proof (score_ge_50 x). lia.
  - exists m. split; [done|]. unfold select_best_version.
    destruct l; [done|]. by rewrite Hr.
Qed.

Lemma subseq_drop n (s : string) : subseq (Str.drop n s) s.
Proof.
  revert n. induction s as [|x s IH]; intros [|n]; simpl;
    auto using subseq_refl, subseq_nil, subseq_skip.
Qed.

Lemma subseq_no_mem c (s t : string) :
  subseq s t -> Str.mem c t = false -> Str.mem c s = false.
Proof.
  intros Hst Ht. destruct (Str.mem c s) eqn:Hs; [|done].
  by rewrite (subseq_mem _ _ _ Hst Hs) in Ht.
Qed.

Lemma clean_name_no_slash (nm : string) :
  Str.mem "/" nm = false -> Path.name nm = nm ->
  Str.mem "/" (get_clean_name_for_rename nm) = false
  /\ Str.mem "/" (Path.suffix nm) = false.
Proof.
  intros Hnm Hname.
  assert (Str.mem "/" (Path.stem nm) = false) as Hstem.
  { unfold Path.stem. rewrite Hname. cbv zeta.
    destruct (Path.suffix_index nm); [|done].
    by eapply subseq_no_mem; [apply subseq_take|]. }
  split.
  - unfold get_clean_name_for_rename. cbv zeta.
    eapply subseq_no_mem; [apply subseq_strip|].
    assert (Str.mem "/" (Re.sub_empty Re.paren_tag (Path.stem nm)) = false)
      as Hbase by (eapply subseq_no_mem; [apply subseq_sub_go|done]).
    destruct (Str.endswith ", The" _); [|done].
    rewrite mem_app. cbn [Str.mem Ascii.eqb Bool.eqb orb].
    by eapply subseq_no_mem; [apply subseq_take|].
  - unfold Path.suffix. rewrite Hname. cbv zeta.
    destruct (Path.suffix_index nm); [|done].
    by eapply subseq_no_mem; [apply subseq_drop|].
Qed.

End ScoreMore.

(** X21: every score is at least 50, and at least 100 without a penalty
    tag, so the first candidate always replaces the initial best of
    [-1]. *)
Theorem score_bounds (m : string) :
  (50 <= score m)%Z
  /\ (~ tagged (Str.lower (Str.last_segment m)) -> (100 <= score m)%Z).
Proof.
  split; [apply score_ge_50|]. intros Hclean.
  destruct (score_correct m) as (pen & bonus & Hpen & Hbonus & ->).
  destruct Hpen as [?|_]; [done|].
  pose proof (rev_bonus_nonneg _ _ Hbonus). lia.
Qed.

(** X22: one more candidate at the end of the list takes the selection
    only with a strictly higher score than the selected one; otherwise
    the selection stays. *)
Theorem select_best_version_snoc (matches : list string) (best m : string) :
  select_best_version matches = Some best ->
  select_best_version (matches ++ [m])
  = Some (if (score m >? score best)%Z then m else best).
Proof.
  intros Hsel.
  assert (matches <> []) as Hne by (intros ->; done).
  destruct (select_state matches Hne) as (b & Hst & Hb).
  rewrite Hsel in Hb. injection Hb as <-.
  unfold select_best_version. destruct (matches ++ [m]) eqn:Happ.
  { by apply app_eq_nil in Happ as [_ ?]. }
  rewrite <- Happ, fold_left_app, Hst. cbn [fold_left].
  unfold select_step. cbn [snd]. by destruct (score m >? score best)%Z.
Qed.

Lemma select_best_version_snoc_witness :
  select_best_version (["A (USA).zip"; "A (USA) (Rev 1).zip"] ++ ["A (USA) (Rev 1) (alt).zip"])
  = Some "A (USA) (Rev 1).zip".
Proof.
  rewrite (select_best_version_snoc ["A (USA).zip"; "A (USA) (Rev 1).zip"]
             "A (USA) (Rev 1).zip" "A (USA) (Rev 1) (alt).zip");
    reflexivity.
Defined.

(** X23: the new name of a file holds no slash, so a rename stays in the
    directory of the file, and [with_name] refuses the new name only when
    it is empty or ["."]. *)
Theorem new_name_in_place (f : file) :
  Path.valid_name (file_name f) = true ->
  Str.mem "/" (new_name_of f) = false
  /\ (Path.valid_name (new_name_of f) = false
      <-> new_name_of f = "" \/ new_name_of f = ".").
Proof.
  intros Hvalid. pose proof (valid_name_is_name _ Hvalid) as Hname.
  assert (Str.mem "/" (file_name f) = false) as Hslash.
  { unfold Path.valid_name in Hvalid.
    apply andb_true_iff in Hvalid as [[_ H]%andb_true_iff _].
    by apply negb_true_iff in H. }
  destruct (clean_name_no_slash _ Hslash Hname) as [Hc Hs].
  assert (Str.mem "/" (new_name_of f) = false) as Hnew.
  { unfold new_name_of. by rewrite mem_app, Hc, Hs. }
  split; [done|]. unfold Path.valid_name. rewrite Hnew. cbn [negb].
  rewrite andb_true_r, andb_false_iff, !negb_false_iff, !String.eqb_eq. done.
Qed.

Lemma new_name_in_place_witness :
  Str.mem "/" (new_name_of (File "roms" "(USA)")) = false
  /\ (Path.valid_name (new_name_of (File "roms" "(USA)")) = false
      <-> new_name_of (File "roms" "(USA)") = ""
          \/ new_name_of (File "roms" "(USA)") = ".").
Proof. apply (new_name_in_place (File "roms" "(USA)")). reflexivity. Defined.
